(** * OMAP radar: the engine beneath the display

    A shallow embedding of [OMAP-Radar.py] and the properties its
    specification states about it.

    Numbers.  The topology builder only subtracts, multiplies, adds and
    compares coordinates, and the node store only stores, converts and tests
    numbers: there Python's [float] is the kernel's binary64 [float], whose
    operations are the IEEE 754 ones Python runs.  The projector calls
    [math.cos], which the kernel's floats do not have: it is read over the
    real numbers, where no operation rounds.  The zoom step of the viewport
    is written once over the operations it uses and read twice: over binary64,
    as it runs, and over the rationals, where its algebra is exact. *)

From Stdlib Require Import ZArith QArith Qround Qminmax Reals Lra Floats String.
From stdpp Require Import gmap strings list sorting relations pretty.

#[global] Instance float_inhabited : Inhabited float := populate 0%float.

(** ** Part I: the program *)

(** *** Python values *)

(** The decoded records the handlers receive are dictionaries whose values
    may be anything the decoder produced: the model covers [None], booleans,
    integers, floats, strings, bytes and dictionaries with string keys. *)
Module Py.

#[warnings="-register-all"]
Inductive value : Type :=
  | VNone
  | VBool (b : bool)
  | VInt (z : Z)
  | VFloat (x : float)
  | VStr (s : string)
  | VBytes (s : string)
  | VDict (items : list (string * value)).

Inductive exn : Type :=
  | TypeError | ValueError | AttributeError | OverflowError | ZeroDivisionError.

(** What Python and the clock decide and the model leaves open: the reading
    of a string as a float, the text [str] gives for a float, bytes or a
    dictionary, and the successive readings of [time.time()]. *)
Class Builtins : Type := {
  float_of_str : string → option float;
  repr : value → string;
  clock : nat → float }.

(** [bool(v)]. *)
Definition truthy (v : value) : bool :=
  match v with
  | VNone => false
  | VBool b => b
  | VInt z => negb (z =? 0)%Z
  | VFloat x => negb (x =? 0)%float
  | VStr s | VBytes s => negb (String.eqb s "")
  | VDict items => match items with [] => false | _ => true end
  end.

Definition is_none (v : value) : bool :=
  match v with VNone => true | _ => false end.

(** [isinstance(v, dict)] and [isinstance(v, (bytes, bytearray))]. *)
Definition is_dict (v : value) : bool :=
  match v with VDict _ => true | _ => false end.

Definition is_bytes (v : value) : bool :=
  match v with VBytes _ => true | _ => false end.

(** [float(n)] of an integer: the nearest float, ties to even; an integer
    beyond the largest float raises [OverflowError]. *)
Definition float_of_Z (z : Z) : option float :=
  let x := SF2Prim (binary_normalize prec emax z 0 false) in
  if is_infinity x then None else Some x.

(** [int(x)] of a finite float, truncated towards zero. *)
Definition float_to_Z (x : float) : option Z :=
  match Prim2SF x with
  | S754_zero _ => Some 0%Z
  | S754_finite s m e =>
      let v := if (0 <=? e)%Z then (Z.pos m * 2 ^ e)%Z else (Z.pos m / 2 ^ (- e))%Z in
      Some (if s then (- v)%Z else v)
  | _ => None
  end.

(** [x == n] of a float and an integer, which Python decides exactly. *)
Definition float_eq_Z (x : float) (z : Z) : bool :=
  match float_to_Z x with
  | Some t =>
      (t =? z)%Z && match float_of_Z t with Some y => (y =? x)%float | None => false end
  | None => false
  end.

Section builtins.
Context `{Builtins}.

(** [float(v)]. *)
Definition py_float (v : value) : exn + float :=
  match v with
  | VNone | VDict _ => inl TypeError
  | VBool b => inr (if b then 1 else 0)%float
  | VInt z => match float_of_Z z with Some x => inr x | None => inl OverflowError end
  | VFloat x => inr x
  | VStr s | VBytes s =>
      match float_of_str s with Some x => inr x | None => inl ValueError end
  end.

(** [str(v)]. *)
Definition py_str (v : value) : string :=
  match v with
  | VStr s => s
  | VInt z => pretty z
  | VBool true => "True"
  | VBool false => "False"
  | VNone => "None"
  | _ => repr v
  end.

End builtins.

(** [d.get(k)] on the items of a dictionary. *)
Fixpoint assoc (k : string) (items : list (string * value)) : option value :=
  match items with
  | [] => None
  | (k', v) :: rest => if String.eqb k' k then Some v else assoc k rest
  end.

(** [k in d]. *)
Definition has_key (k : string) (d : value) : bool :=
  match d with
  | VDict items => match assoc k items with Some _ => true | None => false end
  | _ => false
  end.

(** [v.get(k)]: [None] for a missing key; only a dictionary has [get]. *)
Definition py_get (v : value) (k : string) : exn + value :=
  match v with
  | VDict items => inr (default VNone (assoc k items))
  | _ => inl AttributeError
  end.

(** A dictionary cannot be a key: hashing it raises [TypeError]. *)
Definition hashable (v : value) : bool := negb (is_dict v).

(** [a == b] for two keys.  [True] is [1] and a float equals the integer of
    its value; a NaN equals nothing, itself included. *)
Definition key_eqb (a b : value) : bool :=
  match a, b with
  | VNone, VNone => true
  | VStr s, VStr t | VBytes s, VBytes t => String.eqb s t
  | VBool x, VBool y => Bool.eqb x y
  | VBool x, VInt z | VInt z, VBool x => (Z.b2z x =? z)%Z
  | VInt x, VInt y => (x =? y)%Z
  | VFloat x, VFloat y => (x =? y)%float
  | VFloat x, VInt z | VInt z, VFloat x => float_eq_Z x z
  | VFloat x, VBool b | VBool b, VFloat x => float_eq_Z x (Z.b2z b)
  | _, _ => false
  end.

End Py.

(** *** NodeStore: [now], [set_origin_if_empty], [upsert_node] and the handlers
    [on_rx] and [on_node_updated] *)

Module Store.
Import Py.

(** A node record [{"name", "lat", "lon", "last"}]; [lat] and [lon] hold
    [None] or a float. *)
Record node : Type := Node {
  name : value;
  lat : option float;
  lon : option float;
  last : float }.

(** The global [origin]. *)
Record origin_t : Type := Origin {
  o_lat : option float;
  o_lon : option float;
  o_set : bool }.

(** The globals the handlers touch: [nodes] (a dictionary keeps its keys in
    insertion order), [origin], [status["last_packet"]], the queue [q], and
    the number of clock readings taken so far. *)
Record state : Type := State {
  nodes : list (value * node);
  origin : origin_t;
  last_packet : float;
  q : list (string * value * float);
  ticks : nat }.

Definition initial : state :=
  State [] (Origin None None false) 0%float [] 0.

(** A computation on the globals that returns or raises. *)
Definition M (A : Type) : Type := state → state * (exn + A).

#[global] Instance M_ret : MRet M := λ A a st, (st, inr a).

#[global] Instance M_bind : MBind M := λ A B f m st,
  match m st with
  | (st', inr a) => f a st'
  | (st', inl e) => (st', inl e)
  end.

#[global] Instance M_fmap : FMap M := λ A B f m, a ← m; mret (f a).

Definition raise {A} (e : exn) : M A := λ st, (st, inl e).

Definition lift {A} (r : exn + A) : M A := λ st, (st, r).

Definition modify (f : state → state) : M unit := λ st, (f st, inr tt).

(** [try: body / except Exception: return]: what the body changed before it
    raised stays changed. *)
Definition try_ (body : M unit) : M unit := λ st, ((body st).1, inr tt).

(** [a or b]: [b] is evaluated only when [a] is falsy. *)
Definition or_else (a : value) (b : M value) : M value :=
  if truthy a then mret a else b.

Fixpoint nodes_lookup (k : value) (l : list (value * node)) : option node :=
  match l with
  | [] => None
  | (k', r) :: rest => if key_eqb k' k then Some r else nodes_lookup k rest
  end.

(** An assignment to a field of the record stored under [k]. *)
Fixpoint nodes_alter (f : node → node) (k : value) (l : list (value * node))
    : list (value * node) :=
  match l with
  | [] => []
  | (k', r) :: rest =>
      if key_eqb k' k then (k', f r) :: rest else (k', r) :: nodes_alter f k rest
  end.

Definition set_nodes (f : list (value * node) → list (value * node)) (st : state) : state :=
  State (f (nodes st)) (origin st) (last_packet st) (q st) (ticks st).

Definition set_name (v : value) (r : node) : node := Node v (lat r) (lon r) (last r).
Definition set_last (t : float) (r : node) : node := Node (name r) (lat r) (lon r) t.
Definition set_pos (la lo : float) (r : node) : node :=
  Node (name r) (Some la) (Some lo) (last r).

(** [rec] is a reference: the dictionary stored under [nid] when there is
    one, which every assignment changes in place, or a fresh dictionary that
    [nodes] does not hold until [nodes[nid] = rec]. *)
Inductive rec_ref : Type :=
  | Stored
  | Fresh (r : node).

Definition rec_set (nid : value) (f : node → node) (rec : rec_ref) : M rec_ref :=
  match rec with
  | Stored => modify (set_nodes (nodes_alter f nid));; mret Stored
  | Fresh r => mret (Fresh (f r))
  end.

Section builtins.
Context `{Builtins}.

(** [now()]: the next reading of the clock. *)
Definition now : M float :=
  λ st, (State (nodes st) (origin st) (last_packet st) (q st) (S (ticks st)),
         inr (clock (ticks st))).

(** [nodes.get(nid)]. *)
Definition nodes_get (nid : value) : M (option node) :=
  if hashable nid then λ st, (st, inr (nodes_lookup nid (nodes st)))
  else raise TypeError.

(** [nodes[nid] = rec]: nothing changes when [rec] is the stored dictionary;
    a fresh one goes in as the last key. *)
Definition nodes_store (nid : value) (rec : rec_ref) : M unit :=
  match rec with
  | Stored => mret tt
  | Fresh r => modify (set_nodes (λ l, l ++ [(nid, r)]))
  end.

Definition set_origin_if_empty (lat lon : value) : M unit :=
  st ← (λ st, (st, inr st));
  if negb (is_none lat) && negb (is_none lon) && negb (o_set (origin st)) then
    la ← lift (py_float lat);
    lo ← lift (py_float lon);
    modify (λ st, State (nodes st) (Origin (Some la) (Some lo) true)
                        (last_packet st) (q st) (ticks st))
  else mret tt.

Definition upsert_node (nid name lat lon ts : value) : M unit :=
  found ← nodes_get nid;
  rec ← match found with
        | Some _ => mret Stored
        | None => t ← now; mret (Fresh (Node nid None None t))
        end;
  rec ← (if truthy name then rec_set nid (set_name name) rec else mret rec);
  t ← or_else ts (VFloat <$> now);
  t ← lift (py_float t);
  rec ← rec_set nid (set_last t) rec;
  rec ← (if negb (is_none lat) && negb (is_none lon) then
           la ← lift (py_float lat);
           lo ← lift (py_float lon);
           rec ← rec_set nid (set_pos la lo) rec;
           set_origin_if_empty lat lon;;
           mret rec
         else mret rec);
  nodes_store nid rec.

(** [_as_dict(obj)]: a dictionary is returned as it is; no other value of the
    model has a [__dict__]. *)
Definition _as_dict (obj : value) : option value :=
  if is_dict obj then Some obj else None.

Definition q_put (tag : string) (nid : value) (t : float) : M unit :=
  modify (λ st, State (nodes st) (origin st) (last_packet st)
                      (q st ++ [(tag, nid, t)]) (ticks st)).

(** [(d.get("payload") or {}).get("position")]. *)
Definition payload_position (d : value) : M value :=
  pl ← lift (py_get d "payload");
  pl ← or_else pl (mret (VDict []));
  lift (py_get pl "position").

(** [nid = pkt.get("fromId") or str(pkt.get("from") or "") or "unknown"]. *)
Definition rx_node_id (pkt : value) : M value :=
  from_id ← lift (py_get pkt "fromId");
  or_else from_id
    (frm ← lift (py_get pkt "from");
     frm ← or_else frm (mret (VStr ""));
     or_else (VStr (py_str frm)) (mret (VStr "unknown"))).

(** [ts = float(pkt.get("rxTime") or now())]. *)
Definition rx_time (pkt : value) : M float :=
  rx ← lift (py_get pkt "rxTime");
  ts ← or_else rx (VFloat <$> now);
  lift (py_float ts).

(** [name = None], and the long or short name when [pkt.get("from")] is a
    dictionary. *)
Definition rx_name (pkt : value) : M value :=
  frm ← lift (py_get pkt "from");
  if is_dict frm then
    long ← lift (py_get frm "longName");
    or_else long (lift (py_get frm "shortName"))
  else mret VNone.

(** The position: under [decoded], under its payload, in the packet, or under
    the packet's payload, whichever is truthy first. *)
Definition rx_position (pkt : value) : M value :=
  decoded ← lift (py_get pkt "decoded");
  decoded ← or_else decoded (mret (VDict []));
  pos ← (if is_dict decoded then
           p ← lift (py_get decoded "position");
           or_else p (payload_position decoded)
         else mret VNone);
  or_else pos
    (p ← lift (py_get pkt "position");
     or_else p (payload_position pkt)).

(** The body of the [try] of [on_rx]. *)
Definition on_rx_body (pkt : value) : M unit :=
  nid ← rx_node_id pkt;
  ts ← rx_time pkt;
  name ← rx_name pkt;
  pos ← rx_position pkt;
  name ← or_else name (mret nid);
  (if is_dict pos && has_key "latitude" pos && has_key "longitude" pos then
     la ← lift (py_get pos "latitude");
     lo ← lift (py_get pos "longitude");
     upsert_node nid name la lo (VFloat ts)
   else upsert_node nid name VNone VNone (VFloat ts));;
  q_put "rx" nid ts.

Definition on_rx (packet : value) : M unit :=
  t ← now;
  modify (λ st, State (nodes st) (origin st) t (q st) (ticks st));;
  if is_none packet || is_bytes packet then mret tt
  else
    match (if is_dict packet then Some packet else _as_dict packet) with
    | None => mret tt
    | Some pkt => if negb (truthy pkt) then mret tt else try_ (on_rx_body pkt)
    end.

(** The body of the [try] of [on_node_updated]. *)
Definition on_node_updated_body (nd : value) : M unit :=
  num ← lift (py_get nd "num");
  id ← or_else num (i ← lift (py_get nd "id"); or_else i (mret (VStr "")));
  let nid := VStr (py_str id) in
  if negb (truthy nid) then mret tt
  else
    user ← lift (py_get nd "user");
    user ← or_else user (mret (VDict []));
    long ← lift (py_get user "longName");
    name ← or_else long (short ← lift (py_get user "shortName");
                         or_else short (mret nid));
    pos ← lift (py_get nd "position");
    pos ← or_else pos (mret (VDict []));
    la ← lift (py_get pos "latitude");
    lo ← lift (py_get pos "longitude");
    t ← now;
    upsert_node nid name la lo (VFloat t);;
    t ← now;
    q_put "node" nid t.

Definition on_node_updated (node : value) : M unit :=
  match (if is_dict node then Some node else _as_dict node) with
  | None => mret tt
  | Some nd => if negb (truthy nd) then mret tt else try_ (on_node_updated_body nd)
  end.

End builtins.

End Store.

(** *** TopologyBuilder: [_euclid2], [build_mst_edges], [build_knn_edges] *)

Module Topology.
Open Scope Z_scope.

(** A point is a pair [(x, y)] in metres; an edge is a pair of indices into
    the point list of the call. *)
Definition point : Type := float * float.
Definition edge : Type := Z * Z.

Definition _euclid2 (ax ay bx by_ : float) : float :=
  let dx := (ax - bx)%float in
  let dy := (ay - by_)%float in
  (dx * dx + dy * dy)%float.

(** [_euclid2(points[i][0], points[i][1], points[j][0], points[j][1])].  Every
    index the code subscripts with comes from [range(n)], so the default of
    [!!!] is never read. *)
Definition d2_between (points : list point) (i j : nat) : float :=
  _euclid2 (points !!! i).1 (points !!! i).2 (points !!! j).1 (points !!! j).2.

(** The four lists Prim's loop works on. *)
Record prim : Type := Prim {
  in_tree : list bool;
  dist2 : list float;
  parent : list Z;
  edges : list edge }.

(** [in_tree[0] = True], then [for j in range(1, n)]: the distance to point 0
    and parent 0. *)
Definition init_step (points : list point) (s : prim) (j : nat) : prim :=
  Prim (in_tree s) (<[j := d2_between points 0 j]> (dist2 s))
       (<[j := 0]> (parent s)) (edges s).

Definition mst_init (points : list point) : prim :=
  let n := length points in
  foldl (init_step points)
        (Prim (<[0%nat := true]> (replicate n false)) (replicate n infinity)
              (replicate n (-1)) [])
        (seq 1 (n - 1)).

(** One turn of [for j in range(n)] in the search for the nearest point
    outside the tree; [acc] is [(k, best)]. *)
Definition select_step (s : prim) (acc : Z * float) (j : nat) : Z * float :=
  let '(k, best) := acc in
  if negb (in_tree s !!! j) && (dist2 s !!! j <? best)%float
  then (Z.of_nat j, dist2 s !!! j) else (k, best).

(** [k = -1; best = float("inf")] and the scan. *)
Definition mst_select (n : nat) (s : prim) : Z * float :=
  foldl (select_step s) (-1, infinity) (seq 0 n).

(** One turn of the second [for j in range(n)]: the distance from the new
    tree point [k] replaces a larger [dist2[j]]. *)
Definition relax_step (points : list point) (k : nat) (s : prim) (j : nat) : prim :=
  if negb (in_tree s !!! j) then
    let d2 := d2_between points k j in
    if (d2 <? dist2 s !!! j)%float
    then Prim (in_tree s) (<[j := d2]> (dist2 s)) (<[j := Z.of_nat k]> (parent s)) (edges s)
    else s
  else s.

Definition mst_relax (points : list point) (k : nat) (s : prim) : prim :=
  foldl (relax_step points k) s (seq 0 (length points)).

(** [in_tree[k] = True; edges.append((k, parent[k]))]. *)
Definition grow (k : nat) (s : prim) : prim :=
  Prim (<[k := true]> (in_tree s)) (dist2 s) (parent s)
       (edges s ++ [(Z.of_nat k, parent s !!! k)]).

(** [for _ in range(n-1)], with its [if k == -1: break]. *)
Fixpoint mst_loop (points : list point) (rounds : nat) (s : prim) : prim :=
  match rounds with
  | O => s
  | S rounds' =>
      let '(k, _) := mst_select (length points) s in
      if k =? -1 then s
      else mst_loop points rounds' (mst_relax points (Z.to_nat k) (grow (Z.to_nat k) s))
  end.

Definition build_mst_edges (points : list point) : list edge :=
  let n := length points in
  if (n <=? 1)%nat then []
  else edges (mst_loop points (n - 1) (mst_init points)).

(** [dlist.sort(key=lambda t: t[0])]: Python's sort is stable and compares
    keys with [<] only.  On keys without a NaN every stable sort returns this
    list: the keys ascending, equal keys in their order of arrival. *)
Fixpoint insert_by_key (x : float * nat) (l : list (float * nat)) : list (float * nat) :=
  match l with
  | [] => [x]
  | y :: l' => if (y.1 <? x.1)%float then y :: insert_by_key x l' else x :: l
  end.

Definition sort_by_key (l : list (float * nat)) : list (float * nat) :=
  foldr insert_by_key [] l.

(** [a, b = (i, j) if i < j else (j, i)]. *)
Definition canon (i j : nat) : edge :=
  if (i <? j)%nat then (Z.of_nat i, Z.of_nat j) else (Z.of_nat j, Z.of_nat i).

(** One turn of the inner [for j in range(n)]: [if i == j: continue], else
    [dlist.append((d2, j))]. *)
Definition dlist_step (points : list point) (i : nat)
    (dlist : list (float * nat)) (j : nat) : list (float * nat) :=
  if (i =? j)%nat then dlist else dlist ++ [(d2_between points i j, j)].

Definition knn_dlist (points : list point) (i : nat) : list (float * nat) :=
  foldl (dlist_step points i) [] (seq 0 (length points)).

(** [for d2, j in dlist]: a pair within range that is not in [out] yet is
    added and counted; the count is tested against [k] after the addition
    only. *)
Fixpoint knn_scan (i : nat) (k : Z) (max_m2 : float) (dlist : list (float * nat))
    (added : Z) (out : gset edge) : gset edge :=
  match dlist with
  | [] => out
  | (d2, j) :: rest =>
      if (d2 <=? max_m2)%float then
        if decide (canon i j ∉ out) then
          let out' := out ∪ {[canon i j]} in
          let added' := added + 1 in
          if added' >=? k then out' else knn_scan i k max_m2 rest added' out'
        else knn_scan i k max_m2 rest added out
      else knn_scan i k max_m2 rest added out
  end.

(** The body of [for i in range(n)]. *)
Definition knn_point (points : list point) (k : Z) (max_m2 : float)
    (out : gset edge) (i : nat) : gset edge :=
  knn_scan i k max_m2 (sort_by_key (knn_dlist points i)) 0 out.

(** [return list(out)]: the order of the list is the set's iteration order,
    which Python leaves open; the model returns the set. *)
Definition build_knn_edges (points : list point) (k : Z) (max_m : float) : gset edge :=
  let max_m2 := (max_m * max_m)%float in
  foldl (knn_point points k max_m2) ∅ (seq 0 (length points)).

End Topology.

(** *** CoordinateProjector: [latlon_to_xy_m], [xy_m_to_latlon] *)

(** Read over the real numbers: [math.cos] is [cos], [math.radians]
    multiplies by [PI / 180], and no operation rounds.  An argument is [None]
    or a number. *)
Module Projector.
Import Py.
Open Scope R_scope.

(** [R = 111320.0], metres per degree. *)
Definition R_m : R := 111320.

(** [math.radians(x)]. *)
Definition radians (x : R) : R := x * (PI / 180).

(** [if None in (lat, lon, lat0, lon0): return None], else the pair. *)
Definition latlon_to_xy_m (lat lon lat0 lon0 : option R) : option (R * R) :=
  match lat, lon, lat0, lon0 with
  | Some lat, Some lon, Some lat0, Some lon0 =>
      let x := (lon - lon0) * cos (radians lat0) * R_m in
      let y := (lat - lat0) * R_m in
      Some (x, y)
  | _, _, _, _ => None
  end.

(** No guard here: [ym / R] and [lat0 + ...] raise [TypeError] on [None], and
    so do [xm / ...] and [lon0 + ...]; a divisor that is zero raises
    [ZeroDivisionError]. *)
Definition xy_m_to_latlon (xm ym lat0 lon0 : option R) : exn + (R * R) :=
  match ym, lat0 with
  | Some ym, Some lat0 =>
      let lat := lat0 + ym / R_m in
      let d := R_m * cos (radians lat0) in
      match xm with
      | Some xm =>
          if Req_dec_T d 0 then inl ZeroDivisionError
          else match lon0 with
               | Some lon0 => inr (lat, lon0 + xm / d)
               | None => inl TypeError
               end
      | None => inl TypeError
      end
  | _, _ => inl TypeError
  end.

End Projector.

(** *** ViewportController: [to_screen] and the wheel handler of [main] *)

(** Pixel coordinates and the wheel direction are integers; the scale, the
    zoom factor and the pan are numbers of a type [T] with the operations the
    handler uses.  [T] is the binary64 [float] as the program runs, and the
    rationals when the arithmetic is read without rounding. *)
Module Viewport.
Import Py.
Open Scope Z_scope.

(** The operations on numbers: the conversion of an integer operand, a
    decimal literal [n/d], the four operations ([quot] is [/] once the
    divisor is known not to be zero), the tests [x == 0] and [x < y], and
    [int(x)], which raises on an infinity or a NaN. *)
Class Number (T : Type) : Type := {
  of_int : Z → T;
  decimal : Z → positive → T;
  add : T → T → T;
  sub : T → T → T;
  mul : T → T → T;
  quot : T → T → T;
  is_zero : T → bool;
  ltb : T → T → bool;
  trunc : T → exn + Z }.

(** Python's [float].  An integer operand is rounded to the nearest float (a
    pixel coordinate is far below the range where the conversion fails), and a
    decimal literal denotes the float nearest to it, which is the correctly
    rounded quotient of its numerator and denominator when both are floats. *)
#[global] Instance float_number : Number float := {
  of_int z := SF2Prim (binary_normalize prec emax z 0 false);
  decimal n d := (SF2Prim (binary_normalize prec emax n 0 false) /
                  SF2Prim (binary_normalize prec emax (Z.pos d) 0 false))%float;
  add := PrimFloat.add;
  sub := PrimFloat.sub;
  mul := PrimFloat.mul;
  quot := PrimFloat.div;
  is_zero x := (x =? 0)%float;
  ltb := PrimFloat.ltb;
  trunc x := match float_to_Z x with
             | Some z => inr z
             | None => inl (if is_nan x then ValueError else OverflowError)
             end }.



(** An expression returns or raises. *)
#[export] Instance exn_ret : MRet (sum exn) := λ A, inr.

#[export] Instance exn_bind : MBind (sum exn) := λ A B f m,
  match m with inr a => f a | inl e => inl e end.

Inductive mode : Type := Fit | Manual.

Section number.
Context {T : Type} `{Number T}.

(** The globals of the view. *)
Record view : Type := View {
  zoom_mode : mode;
  zoom_k : T;
  pan_x_m : T;
  pan_y_m : T;
  pan_vx : T;
  pan_vy : T }.

(** [ZOOM_STEP = 1.15]. *)
Definition ZOOM_STEP : T := decimal 115 100.

(** [a / b], which raises on a zero divisor. *)
Definition div (a b : T) : exn + T :=
  if is_zero b then inl ZeroDivisionError else inr (quot a b).

(** [max(a, b)]: [b] when [b > a], else [a]. *)
Definition py_max (a b : T) : T := if ltb a b then b else a.

(** [scale = fit_scale if zoom_mode=="fit" else max(0.0001, fit_scale*zoom_k)]. *)
Definition current_scale (v : view) (fit_scale : T) : T :=
  match zoom_mode v with
  | Fit => fit_scale
  | Manual => py_max (decimal 1 10000) (mul fit_scale (zoom_k v))
  end.

(** [to_screen] closes over [cx], [cy], [scale] and the pan, and reads them
    when it is called:
    [int(cx+(xm-pan_x_m)*scale), int(cy-(ym-pan_y_m)*scale)]. *)
Definition to_screen (cx cy : Z) (scale : T) (v : view) (xm ym : T) : exn + (Z * Z) :=
  x ← trunc (add (of_int cx) (mul (sub xm (pan_x_m v)) scale));
  y ← trunc (sub (of_int cy) (mul (sub ym (pan_y_m v)) scale));
  mret (x, y).

(** The zoom branch of the [WHEEL_EVT] handler, for a wheel event at
    [(mx, my)] outside the side panel, statement by statement:
    [wx = (mx - cx)/scale + pan_x_m], [wy = -(my - cy)/scale + pan_y_m],
    [zoom_mode = "manual"], [zoom_k *= ...], the new [scale], and the pan
    solved from [wx] and [wy].  It returns the world point [(wx, wy)], the new
    view and the new [scale]. *)
Definition wheel_zoom (cx cy mx my dirn : Z) (fit_scale scale : T) (v : view)
    : exn + (T * T * view * T) :=
  qx ← div (of_int (mx - cx)) scale;
  let wx := add qx (pan_x_m v) in
  qy ← div (of_int (- (my - cy))) scale;
  let wy := add qy (pan_y_m v) in
  step ← (if 0 <? dirn then mret ZOOM_STEP else div (decimal 1 1) ZOOM_STEP);
  let k := mul (zoom_k v) step in
  let scale' :=
    current_scale (View Manual k (pan_x_m v) (pan_y_m v) (pan_vx v) (pan_vy v))
                  fit_scale in
  qx ← div (of_int (mx - cx)) scale';
  let pan_x := sub wx qx in
  qy ← div (of_int (my - cy)) scale';
  let pan_y := add wy qy in
  mret (wx, wy, View Manual k pan_x pan_y (pan_vx v) (pan_vy v), scale').

End number.

End Viewport.

(** *** LinkBuilder: [build_links] *)

Module Links.
Import Topology.
Open Scope Z_scope.

(** [LINK_MAX_METERS = 60000], the default [max_m] of [build_knn_edges]: an
    integer, whose square 3 600 000 000 is a float as well, so that comparing
    a squared distance with it is the comparison of two floats. *)
Definition LINK_MAX_METERS : float := 60000.

(** What [build_links] returns: the list of [build_mst_edges], or the
    [list(...)] of a set, whose order Python leaves open. *)
Inductive links : Type :=
  | InOrder (es : list edge)
  | AnyOrder (es : gset edge).

(** [tuple(sorted(e))]. *)
Definition sorted_pair (e : edge) : edge := (Z.min e.1 e.2, Z.max e.1 e.2).

(** Any [mode] that is neither ["mst"] nor ["knn"] takes the last branch. *)
Definition build_links (points : list point) (mode : string) : links :=
  if (length points <=? 1)%nat then InOrder []
  else if String.eqb mode "mst" then InOrder (build_mst_edges points)
  else if String.eqb mode "knn" then AnyOrder (build_knn_edges points 2 LINK_MAX_METERS)
  else
    let mst : gset edge := list_to_set (sorted_pair <$> build_mst_edges points) in
    let knn := build_knn_edges points 2 LINK_MAX_METERS in
    AnyOrder (mst ∪ knn).

End Links.

(** *** The poll of the node database in [iface_thread] *)

Module Poller.
Import Py Store.

Section builtins.
Context `{Builtins}.

(** [for x in xs: body(x)]: an exception leaves the loop. *)
Fixpoint for_each {A} (body : A → M unit) (xs : list A) : M unit :=
  match xs with
  | [] => mret tt
  | x :: xs' => body x;; for_each body xs'
  end.

(** One turn of [for nid, data in nd.items()]. *)
Definition poll_node (nid data : value) : M unit :=
  user ← lift (py_get data "user");
  user ← or_else user (mret (VDict []));
  long ← lift (py_get user "longName");
  name ← or_else long (short ← lift (py_get user "shortName");
                       or_else short (mret (VStr (py_str nid))));
  pos ← lift (py_get data "position");
  pos ← or_else pos (mret (VDict []));
  la ← lift (py_get pos "latitude");
  lo ← lift (py_get pos "longitude");
  t ← now;
  upsert_node (VStr (py_str nid)) name la lo (VFloat t).

(** The [try] of the poll, for the value [nd] of [iface.nodes]:
    [if isinstance(nd, dict): for nid, data in nd.items(): ...], and
    [except Exception], which only asks the radio for its database again. *)
Definition poll_nodes (nd : value) : M unit :=
  try_ (match nd with
        | VDict items => for_each (λ kv, poll_node (VStr kv.1) kv.2) items
        | _ => mret tt
        end).

End builtins.

End Poller.

(** *** PortScanner: [detect_ports] *)

(** The host decides which paths exist and which ports [serial.tools] lists;
    [list_ports] is [None] when the import failed.  A port is named by a
    string, and the [None] of [out or [None]] is the port [None]. *)
Module Ports.

Definition PATTERNS : list string :=
  ["/dev/ttyACM"; "/dev/ttyUSB"; "/dev/cu.usbserial"; "/dev/cu.SLAB_USBtoUART"].

(** [s.endswith(suffix)]. *)
Definition ends_with (suffix s : string) : bool :=
  bool_decide (String.list_ascii_of_string suffix `suffix_of` String.list_ascii_of_string s).

(** [p = f"{pat}{i}" if pat.endswith(("ACM","USB")) else pat]. *)
Definition candidate (pat : string) (i : nat) : string :=
  if ends_with "ACM" pat || ends_with "USB" pat then pat +:+ pretty i else pat.

Section host.
Variable path_exists : string → bool.
Variable list_ports : option (list string).








End host.

End Ports.

(** *** The scale of a frame: [far], [fit_scale] and [scale] in [main] *)

Module Scale.
Import Py Viewport.
Open Scope Z_scope.

(** A row of [plottable]: [(nid, name, xm, ym, age)]. *)
Definition row : Type := value * value * float * float * float.

Section hypot.
(** [math.hypot] on two floats. *)
Variable hypot : float → float → float.

(** The distance of a row from the origin, [math.hypot(xm,ym)]. *)
Definition reach (r : row) : float :=
  let '(_, _, xm, ym, _) := r in hypot xm ym.

(** [far=200.0], then [far=max(far, math.hypot(xm,ym))] for every row. *)
Definition far_of (plottable : list row) : float :=
  foldl (λ far r, py_max far (reach r)) 200%float plottable.

(** [fit_scale = max_px_radius/far if far>0 else 1.0]. *)
Definition fit_scale_of (max_px_radius : Z) (far : float) : exn + float :=
  if ltb (of_int 0) far then div (of_int max_px_radius) far else mret 1%float.

(** The two scales of a frame: [fit_scale], and [scale] as the view has it. *)
Definition frame_scale (v : view) (max_px_radius : Z) (plottable : list row)
    : exn + (float * float) :=
  fit_scale ← fit_scale_of max_px_radius (far_of plottable);
  mret (fit_scale, current_scale v fit_scale).

End hypot.

End Scale.

(** ** Part II: the properties *)

Module ProjectorFacts.
Import Py Projector.
Open Scope R_scope.

Lemma R_m_cos_nonzero lat0 : cos (radians lat0) ≠ 0 → R_m * cos (radians lat0) ≠ 0.
Proof.
  intros H. apply Rmult_integral_contrapositive.
  split; [unfold R_m; lra|done].
Qed.



(** C8, as the code has it.  [latlon_to_xy_m] returns [None], and never
    raises, exactly when one of its four arguments is absent.
    [xy_m_to_latlon] has no such guard: with an absent argument it raises,
    and it returns a pair when all four are present and the cosine of the
    origin latitude is not zero. *)
Theorem projection_absent_input :
  (∀ lat lon lat0 lon0,
     latlon_to_xy_m lat lon lat0 lon0 = None ↔
     lat = None ∨ lon = None ∨ lat0 = None ∨ lon0 = None) ∧
  (∀ xm ym lat0 lon0,
     xm = None ∨ ym = None ∨ lat0 = None ∨ lon0 = None →
     ∃ e, xy_m_to_latlon xm ym lat0 lon0 = inl e) ∧
  (∀ xm ym lat0 lon0 : R,
     cos (radians lat0) ≠ 0 →
     ∃ p, xy_m_to_latlon (Some xm) (Some ym) (Some lat0) (Some lon0) = inr p).
Proof.
  split_and!.
  - intros [lat|] [lon|] [lat0|] [lon0|]; simpl; split; try done; try tauto.
    intros [?|[?|[?|?]]]; done.
  - intros xm ym lat0 lon0 Habs. unfold xy_m_to_latlon.
    destruct ym as [ym|]; [|by eexists].
    destruct lat0 as [lat0|]; [|by eexists].
    destruct xm as [xm|]; [|by eexists].
    destruct (Req_dec_T _ _); [by eexists|].
    destruct lon0 as [lon0|]; [|by eexists].
    destruct Habs as [?|[?|[?|?]]]; done.
  - intros xm ym lat0 lon0 Hc. unfold xy_m_to_latlon.
    destruct (Req_dec_T _ _) as [E|_]; [by apply R_m_cos_nonzero in E|].
    by eexists.
Qed.

(** C8 as stated fails for [xy_m_to_latlon]: with [xm] absent it raises
    [TypeError]; it has no "undefined" result. *)
Lemma unproject_absent_counterexample :
  xy_m_to_latlon None (Some 0) (Some 0) (Some 0) = inl TypeError.
Proof. reflexivity. Qed.

End ProjectorFacts.

Module StoreFacts.
Import Py Store.

(** *** Vocabulary *)

(** An update as the ingestion interface types it: an id, and a name, a
    latitude, a longitude and a timestamp that may each be absent. *)
Definition opt_str (o : option string) : value := from_option VStr VNone o.
Definition opt_float (o : option float) : value := from_option VFloat VNone o.

(** The record [r] after an update: a non-empty name replaces the name, a
    latitude and a longitude given together replace the position, and [t] is
    the new last-seen time. *)
Definition merged (r : node) (nm : option string) (la lo : option float) (t : float) : node :=
  Node (match nm with
        | Some s => if String.eqb s "" then name r else VStr s
        | None => name r
        end)
       (match la, lo with Some x, Some _ => Some x | _, _ => lat r end)
       (match la, lo with Some _, Some y => Some y | _, _ => lon r end)
       t.

(** The last-seen time an update leaves: its timestamp, unless that is absent
    or zero, in which case the clock is read. *)
Definition stamp (ts : option float) (t_now : float) : float :=
  match ts with
  | Some t => if (t =? 0)%float then t_now else t
  | None => t_now
  end.

(** A call of [upsert_node] with its five arguments. *)
Record call : Type := Call {
  c_nid : value;
  c_name : value;
  c_lat : value;
  c_lon : value;
  c_ts : value }.

Section vocabulary.
Context `{Builtins}.

Definition apply_call (c : call) : M unit :=
  upsert_node (c_nid c) (c_name c) (c_lat c) (c_lon c) (c_ts c).

(** The calls one after the other; a call that raises leaves the state it
    reached, as under the handlers' [except]. *)
Definition run_upserts (calls : list call) (st : state) : state :=
  foldl (λ st c, (apply_call c st).1) st calls.

End vocabulary.

(** Latitude and longitude are both absent or both present. *)
Definition paired (r : node) : Prop := lat r = None ↔ lon r = None.

(** The positions the store holds, key by key. *)
Definition positions (l : list (value * node)) : list (value * option float * option float) :=
  (λ kr, (kr.1, lat kr.2, lon kr.2)) <$> l.


(** A property of the node map and the origin, read on a state. *)
Definition on_data (P : list (value * node) → origin_t → Prop) : state → Prop :=
  λ st, P (nodes st) (origin st).

(** [I] holds after [m], raised or returned, when it held before; a value
    [m] returns satisfies [Q]. *)
Definition hoare {A} (I : state → Prop) (m : M A) (Q : A → Prop) : Prop :=
  ∀ st, I st → I (m st).1 ∧ ∀ a, (m st).2 = inr a → Q a.

(** What a record reference must satisfy for [I] to survive its storing. *)
Definition ref_ok (Q : node → Prop) (rec : rec_ref) : Prop :=
  match rec with Stored => True | Fresh r => Q r end.

(** Builtins to run examples with: strings of decimal digits read as floats,
    a placeholder for the texts the model leaves open, and a clock that
    starts at 1 700 000 000 s and advances by a second per reading. *)
Definition digits_value (s : string) : option Z :=
  fold_left (λ acc a,
               match acc with
               | Some n =>
                   let d := Z.of_N (Ascii.N_of_ascii a) in
                   if ((48 <=? d) && (d <=? 57))%Z then Some (10 * n + (d - 48))%Z else None
               | None => None
               end)
            (list_ascii_of_string s) (Some 0%Z).

Definition demo : Builtins := {|
  float_of_str s :=
    if String.eqb s "" then None else n ← digits_value s; float_of_Z n;
  repr _ := "<repr>";
  clock n := default 0%float (float_of_Z (1700000000 + Z.of_nat n)) |}.

(** A store that has heard node A at (1, 2) at time 5; the origin is set. *)
Definition heard_A : state :=
  State [(VStr "A", Node (VStr "A") (Some 1%float) (Some 2%float) 5%float)]
        (Origin (Some 1%float) (Some 2%float) true) 0%float [] 0.

(** *** The monad *)

Ltac run_m :=
  repeat (progress (unfold upsert_node, set_origin_if_empty, or_else, rec_set, nodes_store,
          nodes_get, q_put, raise, modify, lift, now, fmap, M_fmap, mbind, M_bind, mret,
          M_ret; simpl)).

Lemma hoare_ret {A} (I : state → Prop) (a : A) (Q : A → Prop) :
  Q a → hoare I (mret a) Q.
Proof. intros HQ st HI. split; [done|]. by intros a' [= <-]. Qed.

Lemma hoare_bind {A B} (I : state → Prop) (m : M A) (f : A → M B) Q R :
  hoare I m Q → (∀ a, Q a → hoare I (f a) R) → hoare I (m ≫= f) R.
Proof.
  intros Hm Hf st HI. destruct (Hm st HI) as [HI' HQ].
  unfold mbind, M_bind. destruct (m st) as [st' [e|a]]; simpl in *; [done|].
  apply Hf; [by apply HQ|done].
Qed.

Lemma hoare_weaken {A} (I : state → Prop) (m : M A) (Q R : A → Prop) :
  hoare I m Q → (∀ a, Q a → R a) → hoare I m R.
Proof. intros Hm HQR st HI. destruct (Hm st HI). split; [done|]. auto. Qed.

Lemma hoare_lift {A} (I : state → Prop) (r : exn + A) :
  hoare I (lift r) (λ a, r = inr a).
Proof. intros st HI. split; [done|]. simpl. by intros a ->. Qed.

Lemma hoare_raise {A} (I : state → Prop) (e : exn) (Q : A → Prop) :
  hoare I (raise e) Q.
Proof. intros st HI. split; [done|]. intros a. discriminate. Qed.

Lemma hoare_modify (I : state → Prop) (f : state → state) :
  (∀ st, I st → I (f st)) → hoare I (modify f) (λ _, True).
Proof. intros Hf st HI. split; [by apply Hf|done]. Qed.

Lemma hoare_try (I : state → Prop) (body : M unit) Q :
  hoare I body Q → hoare I (try_ body) (λ _, True).
Proof. intros Hb st HI. split; [apply (Hb st HI)|done]. Qed.

Section store.
Context `{Builtins}.

Lemma hoare_now P : hoare (on_data P) now (λ _, True).
Proof. intros st HI. split; [exact HI|done]. Qed.

Lemma hoare_or_else (I : state → Prop) a b :
  hoare I b (λ _, True) → hoare I (or_else a b) (λ _, True).
Proof. intros Hb. unfold or_else. destruct (truthy a); [by apply hoare_ret|done]. Qed.

Lemma hoare_q_put P tag nid t : hoare (on_data P) (q_put tag nid t) (λ _, True).
Proof. apply hoare_modify. intros st HI. exact HI. Qed.

Lemma hoare_rec_set (P : list (value * node) → origin_t → Prop) (Q : node → Prop)
    nid f rec :
  (∀ l o, P l o → P (nodes_alter f nid l) o) → (∀ r, Q r → Q (f r)) →
  ref_ok Q rec → hoare (on_data P) (rec_set nid f rec) (ref_ok Q).
Proof.
  intros HP HQ Hrec. destruct rec as [|r]; simpl.
  - eapply hoare_bind; [apply hoare_modify; intros st; apply HP|].
    intros _ _. by apply hoare_ret.
  - apply hoare_ret. simpl. by apply HQ.
Qed.

(** [upsert_node], once for every property of the data: a property that
    survives the three assignments to the stored record, the storing of a
    fresh one and the setting of an unset origin survives the call, whether it
    returns or raises.  The position and the origin are only reached when
    latitude and longitude are both given. *)
Lemma hoare_upsert (P : list (value * node) → origin_t → Prop) (Q : node → Prop)
    nid nm la lo ts :
  (∀ v l o, P l o → P (nodes_alter (set_name v) nid l) o) →
  (∀ t l o, P l o → P (nodes_alter (set_last t) nid l) o) →
  (is_none la = false → is_none lo = false →
     ∀ x y l o, P l o → P (nodes_alter (set_pos x y) nid l) o) →
  (is_none la = false → is_none lo = false →
     ∀ x y l o, P l o → o_set o = false → P l (Origin (Some x) (Some y) true)) →
  (∀ t, Q (Node nid None None t)) →
  (∀ v r, Q r → Q (set_name v r)) →
  (∀ t r, Q r → Q (set_last t r)) →
  (is_none la = false → is_none lo = false → ∀ x y r, Q r → Q (set_pos x y r)) →
  (∀ r l o, Q r → P l o → P (l ++ [(nid, r)]) o) →
  hoare (on_data P) (upsert_node nid nm la lo ts) (λ _, True).
Proof.
  intros Hname Hlast Hpos Horigin Qnew Qname Qlast Qpos Hstore.
  unfold upsert_node.
  eapply (hoare_bind _ _ _ (λ _, True)).
  { unfold nodes_get. destruct (hashable nid); [|apply hoare_raise].
    intros st HI. by split. }
  intros found _.
  eapply (hoare_bind _ _ _ (ref_ok Q)).
  { destruct found; [by apply hoare_ret|].
    eapply hoare_bind; [apply hoare_now|]. intros t _. apply hoare_ret. apply Qnew. }
  intros rec Hrec.
  eapply (hoare_bind _ _ _ (ref_ok Q)).
  { destruct (truthy nm); [|by apply hoare_ret].
    apply hoare_rec_set; auto. }
  clear rec Hrec. intros rec Hrec.
  eapply (hoare_bind _ _ _ (λ _, True)).
  { apply hoare_or_else. unfold fmap, M_fmap.
    eapply hoare_bind; [apply hoare_now|]. intros t _. by apply hoare_ret. }
  intros t _.
  eapply hoare_bind; [apply hoare_lift|]. intros t' _.
  eapply (hoare_bind _ _ _ (ref_ok Q)); [apply hoare_rec_set; auto|].
  clear rec Hrec. intros rec Hrec.
  eapply (hoare_bind _ _ _ (ref_ok Q)).
  { destruct (is_none la) eqn:Ela; [by apply hoare_ret|].
    destruct (is_none lo) eqn:Elo; [by apply hoare_ret|]. simpl.
    eapply hoare_bind; [apply hoare_lift|]. intros x _.
    eapply hoare_bind; [apply hoare_lift|]. intros y _.
    eapply (hoare_bind _ _ _ (ref_ok Q)); [apply hoare_rec_set; auto|].
    intros rec' Hrec'.
    eapply (hoare_bind _ _ _ (λ _, True)); [|intros _ _; by apply hoare_ret].
    unfold set_origin_if_empty. rewrite Ela, Elo. simpl.
    intros st HI. run_m.
    destruct (o_set (origin st)) eqn:Eset; simpl; [by split|].
    destruct (py_float la) as [e|x']; simpl; [by split|].
    destruct (py_float lo) as [e|y']; simpl; [by split|].
    split; [|done]. exact (Horigin eq_refl eq_refl x' y' _ _ HI Eset). }
  clear rec Hrec. intros rec Hrec.
  destruct rec as [|r]; simpl; [by apply hoare_ret|].
  apply hoare_modify. intros st HI. by apply Hstore.
Qed.

(** *** Merge *)

Lemma key_eqb_str s : key_eqb (VStr s) (VStr s) = true.
Proof. apply String.eqb_refl. Qed.

Lemma nodes_lookup_alter f k l :
  nodes_lookup k (nodes_alter f k l) = f <$> nodes_lookup k l.
Proof.
  induction l as [|[k' r] l IH]; simpl; [done|].
  destruct (key_eqb k' k) eqn:E; simpl; by rewrite E.
Qed.

Lemma nodes_lookup_snoc k r l :
  key_eqb k k = true → nodes_lookup k l = None →
  nodes_lookup k (l ++ [(k, r)]) = Some r.
Proof.
  intros Hk. induction l as [|[k' r'] l IH]; simpl; [by rewrite Hk|].
  destruct (key_eqb k' k); [done|]. exact IH.
Qed.

(** An update for an id the store holds: the stored record is merged, and
    the clock is read once, for the timestamp. *)
Lemma upsert_existing nid nm la lo ts st r :
  nodes_lookup (VStr nid) (nodes st) = Some r →
  (upsert_node (VStr nid) (opt_str nm) (opt_float la) (opt_float lo) (opt_float ts) st).2
    = inr tt ∧
  nodes_lookup (VStr nid)
    (nodes (upsert_node (VStr nid) (opt_str nm) (opt_float la) (opt_float lo)
                        (opt_float ts) st).1)
    = Some (merged r nm la lo (stamp ts (clock (ticks st)))).
Proof.
  intros Hr. run_m. rewrite Hr.
  destruct nm as [s|]; [destruct (String.eqb s "") eqn:Es|];
  (destruct ts as [t|]; [destruct (t =? 0)%float eqn:Et|]);
  destruct la as [x|], lo as [y|]; run_m; rewrite ?Es, ?Et; run_m;
  try destruct (o_set (origin st)); run_m;
  (split; [reflexivity|]);
  rewrite ?nodes_lookup_alter, Hr; destruct r; unfold merged, stamp; simpl;
  rewrite ?Es, ?Et; reflexivity.
Qed.

(** An update for a new id: the record starts as [{"name": nid, "lat": None,
    "lon": None}], which takes one reading of the clock; the timestamp takes
    the next one. *)
Lemma upsert_fresh nid nm la lo ts st :
  nodes_lookup (VStr nid) (nodes st) = None →
  (upsert_node (VStr nid) (opt_str nm) (opt_float la) (opt_float lo) (opt_float ts) st).2
    = inr tt ∧
  nodes_lookup (VStr nid)
    (nodes (upsert_node (VStr nid) (opt_str nm) (opt_float la) (opt_float lo)
                        (opt_float ts) st).1)
    = Some (merged (Node (VStr nid) None None (clock (ticks st))) nm la lo
                   (stamp ts (clock (S (ticks st))))).
Proof.
  intros Hr. run_m. rewrite Hr.
  destruct nm as [s|]; [destruct (String.eqb s "") eqn:Es|];
  (destruct ts as [t|]; [destruct (t =? 0)%float eqn:Et|]);
  destruct la as [x|], lo as [y|]; run_m; rewrite ?Es, ?Et; run_m;
  try destruct (o_set (origin st)); run_m;
  (split; [reflexivity|]);
  (rewrite nodes_lookup_snoc;
   [unfold merged, stamp; simpl; rewrite ?Es, ?Et; reflexivity
   |apply key_eqb_str|done]).
Qed.

(** C1, as the code has it.  An update never raises and leaves under its id
    the stored record (or, for a new id, the record named after the id with
    no position) merged with it: the name is replaced by a non-empty name
    only, the position by a latitude and a longitude given together only, so
    an update with an id and a timestamp alone keeps the position; the
    last-seen time is always set, to the timestamp when that is present and
    not zero, and to the reading of the clock otherwise. *)
Theorem upsert_merges (nid : string) (nm : option string) (la lo ts : option float)
    (st : state) :
  let found := nodes_lookup (VStr nid) (nodes st) in
  let base := default (Node (VStr nid) None None (clock (ticks st))) found in
  let t_now := clock (match found with Some _ => ticks st | None => S (ticks st) end) in
  let out := upsert_node (VStr nid) (opt_str nm) (opt_float la) (opt_float lo)
                         (opt_float ts) st in
  out.2 = inr tt ∧
  nodes_lookup (VStr nid) (nodes out.1) = Some (merged base nm la lo (stamp ts t_now)).
Proof.
  simpl. destruct (nodes_lookup (VStr nid) (nodes st)) as [r|] eqn:Hr; simpl.
  - by apply upsert_existing.
  - by apply upsert_fresh.
Qed.

(** *** The origin *)

Lemma upsert_keeps_origin c o0 :
  o_set o0 = true ∨ is_none (c_lat c) || is_none (c_lon c) = true →
  hoare (on_data (λ _ o, o = o0)) (apply_call c) (λ _, True).
Proof.
  intros Hc. unfold apply_call.
  apply (hoare_upsert _ (λ _, True)); try done.
  intros Ela Elo x y l o -> Hset. destruct Hc as [Hc|Hc]; [congruence|].
  rewrite Ela, Elo in Hc. done.
Qed.

Lemma run_upserts_keeps_origin calls st :
  o_set (origin st) = true → origin (run_upserts calls st) = origin st.
Proof.
  intros Hset. unfold run_upserts.
  revert st Hset. induction calls as [|c calls IH]; intros st Hset; [done|].
  simpl.
  destruct (upsert_keeps_origin c (origin st) (or_introl Hset) st) as [Ho _]; [done|].
  unfold on_data in Ho. rewrite IH; [done|]. by rewrite Ho.
Qed.

Lemma first_fix_sets_origin nid nm x y ts st :
  o_set (origin st) = false →
  origin (upsert_node (VStr nid) (opt_str nm) (VFloat x) (VFloat y) (opt_float ts) st).1
    = Origin (Some x) (Some y) true.
Proof.
  intros Hset. run_m.
  destruct (nodes_lookup (VStr nid) (nodes st));
  (destruct nm as [s|]; [destruct (String.eqb s "") eqn:Es|]);
  (destruct ts as [t|]; [destruct (t =? 0)%float eqn:Et|]);
  run_m; rewrite ?Es, ?Et; run_m; rewrite ?Hset; run_m; reflexivity.
Qed.

(** C2.  Once the origin is set no sequence of calls of [upsert_node], with
    whatever arguments and whether they return or raise, changes its
    latitude, its longitude or its flag; a call that lacks a latitude or a
    longitude leaves the origin as it is; and while the origin is unset, an
    update that carries both sets it to them. *)
Theorem origin_set_once :
  (∀ calls st, o_set (origin st) = true → origin (run_upserts calls st) = origin st) ∧
  (∀ c st, is_none (c_lat c) || is_none (c_lon c) = true →
           origin (apply_call c st).1 = origin st) ∧
  (∀ nid nm x y ts st, o_set (origin st) = false →
     origin (upsert_node (VStr nid) (opt_str nm) (VFloat x) (VFloat y)
                         (opt_float ts) st).1
       = Origin (Some x) (Some y) true).
Proof.
  split_and!.
  - apply run_upserts_keeps_origin.
  - intros c st Hc.
    by destruct (upsert_keeps_origin c (origin st) (or_intror Hc) st).
  - apply first_fix_sets_origin.
Qed.

(** *** Positions *)

Lemma Forall_nodes_alter (Pr : node → Prop) f k l :
  (∀ r, Pr r → Pr (f r)) →
  Forall (λ kr, Pr kr.2) l → Forall (λ kr, Pr kr.2) (nodes_alter f k l).
Proof.
  intros Hf. induction 1 as [|[k' r] l Hr Hl IH]; simpl; [done|].
  destruct (key_eqb k' k); constructor; simpl in *; auto.
Qed.

Lemma positions_nodes_alter f k l :
  (∀ r, lat (f r) = lat r ∧ lon (f r) = lon r) →
  positions (nodes_alter f k l) = positions l.
Proof.
  intros Hf. unfold positions. induction l as [|[k' r] l IH]; [done|].
  cbn [nodes_alter]. destruct (key_eqb k' k); rewrite !fmap_cons; simpl.
  - by destruct (Hf r) as [-> ->].
  - by rewrite <- IH.
Qed.

Lemma upsert_keeps_paired c :
  hoare (on_data (λ l _, Forall (λ kr, paired kr.2) l)) (apply_call c) (λ _, True).
Proof.
  unfold apply_call. apply (hoare_upsert _ paired); try done.
  - intros v l o Hl. by apply Forall_nodes_alter.
  - intros t l o Hl. by apply Forall_nodes_alter.
  - intros _ _ x y l o Hl. by apply Forall_nodes_alter.
  - intros r l o Hr Hl. apply Forall_app. split; [done|]. by constructor.
Qed.

Lemma run_upserts_paired calls st :
  Forall (λ kr, paired kr.2) (nodes st) →
  Forall (λ kr, paired kr.2) (nodes (run_upserts calls st)).
Proof.
  unfold run_upserts. revert st.
  induction calls as [|c calls IH]; intros st Hst; [done|].
  simpl. apply IH. by destruct (upsert_keeps_paired c st Hst).
Qed.

(** The positions [ps], followed by position-less records of [nid] only. *)
Definition positions_kept (nid : value) (ps : list (value * option float * option float))
    (l : list (value * node)) : Prop :=
  ∃ extra, positions l = ps ++ extra ∧ Forall (λ p, p = (nid, None, None)) extra.

Lemma upsert_one_sided c ps o0 :
  is_none (c_lat c) || is_none (c_lon c) = true →
  hoare (on_data (λ l o, positions_kept (c_nid c) ps l ∧ o = o0))
        (apply_call c) (λ _, True).
Proof.
  intros Hc. unfold apply_call.
  apply (hoare_upsert _ (λ r, lat r = None ∧ lon r = None)); try done.
  - intros v l o [(extra & Hl & Hextra) Ho]. split; [|done]. exists extra.
    by rewrite positions_nodes_alter.
  - intros t l o [(extra & Hl & Hextra) Ho]. split; [|done]. exists extra.
    by rewrite positions_nodes_alter.
  - intros Ela Elo. rewrite Ela, Elo in Hc. done.
  - intros Ela Elo. rewrite Ela, Elo in Hc. done.
  - intros Ela Elo. rewrite Ela, Elo in Hc. done.
  - intros r l o [Hla Hlo] [(extra & Hl & Hextra) Ho]. split; [|done].
    exists (extra ++ [(c_nid c, None, None)]). split.
    + unfold positions in *. rewrite fmap_app, Hl, <- app_assoc. simpl.
      by rewrite Hla, Hlo.
    + apply Forall_app. split; [done|]. by constructor.
Qed.

(** C10.  In every state a sequence of calls of [upsert_node] reaches from the
    empty store, whatever the arguments, each record has its latitude and
    longitude both absent or both present; and a call that lacks the latitude
    or the longitude leaves every stored position and the origin as they
    were: the most it adds is a record without position for its own id. *)
Theorem position_pair_atomic :
  (∀ calls, Forall (λ kr, paired kr.2) (nodes (run_upserts calls initial))) ∧
  (∀ c st, is_none (c_lat c) || is_none (c_lon c) = true →
     positions_kept (c_nid c) (positions (nodes st)) (nodes (apply_call c st).1) ∧
     origin (apply_call c st).1 = origin st).
Proof.
  split.
  - intros calls. apply run_upserts_paired. constructor.
  - intros c st Hc.
    destruct (upsert_one_sided c (positions (nodes st)) (origin st) Hc st) as [Hk _];
      [|exact Hk].
    split; [|done]. exists []. by rewrite app_nil_r.
Qed.

(** *** The handlers *)

Lemma hoare_lift_any {A} (I : state → Prop) (r : exn + A) :
  hoare I (lift r) (λ _, True).
Proof. intros st HI. by split. Qed.


Lemma hoare_raises {A} (I : state → Prop) (m : M A) e :
  (∀ st, m st = (st, inl e)) → hoare I m (λ _, False).
Proof. intros Hm st HI. rewrite Hm. split; [done|]. intros x. discriminate. Qed.

(** Blocks that leave the data alone: binds, [or], branches and reads. *)
Ltac pure_solve :=
  lazymatch goal with
  | |- hoare _ (mbind _ _) _ =>
      eapply (hoare_bind _ _ _ (λ _, True)); [pure_solve|intros ? _; pure_solve]
  | |- hoare _ (or_else _ _) _ => apply hoare_or_else; pure_solve
  | |- hoare _ (if ?b then _ else _) _ => destruct b; pure_solve
  | |- hoare _ (mret _) _ => apply hoare_ret; exact I
  | |- hoare _ (lift _) _ => apply hoare_lift_any
  | |- hoare _ now _ => apply hoare_now
  | |- hoare _ (q_put _ _ _) _ => apply hoare_q_put
  | _ => idtac
  end.

Lemma hoare_read_clock P : hoare (on_data P) (VFloat <$> now) (λ _, True).
Proof. unfold fmap, M_fmap. pure_solve. Qed.

Lemma hoare_payload_position P d :
  hoare (on_data P) (payload_position d) (λ _, True).
Proof. unfold payload_position. pure_solve. Qed.

Lemma hoare_rx_node_id P pkt : hoare (on_data P) (rx_node_id pkt) (λ _, True).
Proof. unfold rx_node_id. pure_solve. Qed.

Lemma hoare_rx_time P pkt : hoare (on_data P) (rx_time pkt) (λ _, True).
Proof. unfold rx_time. pure_solve. apply hoare_read_clock. Qed.

Lemma hoare_rx_name P pkt : hoare (on_data P) (rx_name pkt) (λ _, True).
Proof. unfold rx_name. pure_solve. Qed.

Lemma hoare_rx_position P pkt : hoare (on_data P) (rx_position pkt) (λ _, True).
Proof. unfold rx_position. pure_solve; apply hoare_payload_position. Qed.

(** What is left of [on_rx] once the id is known: it touches the data only
    through [upsert_node] for that id. *)
Lemma hoare_rx_rest P pkt nid :
  (∀ nm la lo ts, hoare (on_data P) (upsert_node nid nm la lo ts) (λ _, True)) →
  hoare (on_data P)
    (ts ← rx_time pkt;
     name ← rx_name pkt;
     pos ← rx_position pkt;
     name ← or_else name (mret nid);
     (if is_dict pos && has_key "latitude" pos && has_key "longitude" pos then
        la ← lift (py_get pos "latitude");
        lo ← lift (py_get pos "longitude");
        upsert_node nid name la lo (VFloat ts)
      else upsert_node nid name VNone VNone (VFloat ts));;
     q_put "rx" nid ts)
    (λ _, True).
Proof.
  intros Hup. pure_solve;
    first [apply hoare_rx_time|apply hoare_rx_name|apply hoare_rx_position|apply Hup].
Qed.

(** The field [k] of a record, [None] when the record is no dictionary. *)
Definition field (v : value) (k : string) : value :=
  match py_get v k with inr x => x | inl _ => VNone end.






(** The frame of [on_rx]: the clock and [status] apart, whatever the [try]
    keeps is kept. *)
Lemma hoare_on_rx P packet :
  (is_dict packet = true → truthy packet = true →
     hoare (on_data P) (on_rx_body packet) (λ _, True)) →
  hoare (on_data P) (on_rx packet) (λ _, True).
Proof.
  intros Hbody. unfold on_rx.
  eapply (hoare_bind _ _ _ (λ _, True)); [apply hoare_now|intros t _].
  eapply (hoare_bind _ _ _ (λ _, True)); [apply hoare_modify; by intros st|intros _ _].
  destruct (is_none packet || is_bytes packet); [by apply hoare_ret|].
  unfold _as_dict. destruct (is_dict packet) eqn:Ed; [|by apply hoare_ret].
  destruct (truthy packet) eqn:Et; [|by apply hoare_ret]. simpl.
  eapply hoare_try. by apply Hbody.
Qed.

Lemma on_rx_returns packet st : (on_rx packet st).2 = inr tt.
Proof.
  unfold on_rx, _as_dict. run_m.
  destruct (is_none packet || is_bytes packet); [done|].
  destruct (is_dict packet); [|done].
  by destruct (negb (truthy packet)).
Qed.

Lemma on_node_updated_returns nd st : (on_node_updated nd st).2 = inr tt.
Proof.
  unfold on_node_updated, _as_dict.
  destruct (is_dict nd); [|done].
  by destruct (negb (truthy nd)).
Qed.






End store.


(** C1 as stated fails on a timestamp of zero: [ts or now()] takes it for an
    absent one.  Node A was last seen at 5; an update for A with timestamp 0,
    applied when the clock reads 1 700 000 000, leaves that reading, not 0. *)
Lemma zero_timestamp_counterexample :
  last <$> nodes_lookup (VStr "A")
             (nodes (upsert_node (H := demo) (VStr "A") (opt_str None) (opt_float None)
                                 (opt_float None) (opt_float (Some 0%float)) heard_A).1)
    = Some 1700000000%float ∧
  (1700000000 =? 0)%float = false.
Proof. split; vm_compute; reflexivity. Qed.

End StoreFacts.

Module TopologyFacts.
Import Topology.
Open Scope Z_scope.

(** *** Graphs on edge lists *)

(** Edges are undirected: [u] and [v] are adjacent when the list holds the
    pair in either order. *)
Definition adjacent (E : list edge) (u v : Z) : Prop := (u, v) ∈ E ∨ (v, u) ∈ E.

(** Connected: joined by a walk along edges of the list. *)
Definition connected (E : list edge) : relation Z := rtc (adjacent E).

Definition edges_within (n : nat) (E : list edge) : Prop :=
  ∀ a b, (a, b) ∈ E → (0 ≤ a < Z.of_nat n) ∧ (0 ≤ b < Z.of_nat n).

Definition spans (n : nat) (E : list edge) : Prop :=
  ∀ u v, 0 ≤ u < Z.of_nat n → 0 ≤ v < Z.of_nat n → connected E u v.

(** Acyclic: every edge is a bridge.  Taking any one occurrence of an edge
    out of the list disconnects its two ends; an edge on a cycle, a doubled
    edge and a self-loop all fail this. *)
Definition acyclic (E : list edge) : Prop :=
  ∀ E1 a b E2, E = E1 ++ (a, b) :: E2 → ¬ connected (E1 ++ E2) a b.

Definition spanning_tree (n : nat) (E : list edge) : Prop :=
  length E = (n - 1)%nat ∧ edges_within n E ∧ spans n E ∧ acyclic E.

(** No edge of [E] ends in [w]. *)
Definition untouched (E : list edge) (w : Z) : Prop :=
  ∀ a b, (a, b) ∈ E → a ≠ w ∧ b ≠ w.

Lemma adjacent_sym E u v : adjacent E u v → adjacent E v u.
Proof. unfold adjacent; tauto. Qed.

Lemma connected_sym E u v : connected E u v → connected E v u.
Proof.
  induction 1 as [|x y z Hxy _ IH]; [apply rtc_refl|].
  eapply rtc_r; [exact IH|]. by apply adjacent_sym.
Qed.

Lemma connected_mono E E' u v :
  (∀ e, e ∈ E → e ∈ E') → connected E u v → connected E' u v.
Proof.
  intros Hsub. induction 1 as [|x y z Hxy _ IH]; [apply rtc_refl|].
  eapply rtc_l; [|exact IH]. destruct Hxy as [H|H]; [left|right]; auto.
Qed.

Lemma connected_isolated E w v : untouched E w → connected E w v → v = w.
Proof.
  intros Hw H. destruct H as [|x y z Hxy _]; [done|].
  destruct Hxy as [Hin|Hin]; destruct (Hw _ _ Hin); done.
Qed.

(** A pendant edge to a fresh vertex [w] joins no two other vertices: collapse
    [w] onto its neighbour [p] and every walk stays a walk. *)
Lemma connected_pendant E w p u v :
  untouched E w → u ≠ w → v ≠ w →
  connected (E ++ [(w, p)]) u v → connected E u v.
Proof.
  intros Hw Hu Hv H.
  set (f := λ x : Z, if decide (x = w) then p else x).
  assert (Hstep : ∀ a b, (a, b) ∈ E ++ [(w, p)] → connected E (f a) (f b)).
  { intros a b Hab. apply elem_of_app in Hab as [Hab|Hab].
    - destruct (Hw _ _ Hab) as [Ha Hb]. unfold f.
      rewrite !decide_False by done. apply rtc_once. by left.
    - apply list_elem_of_singleton in Hab. injection Hab as -> ->.
      unfold f. rewrite decide_True by done.
      destruct (decide (p = w)); apply rtc_refl. }
  assert (Hf : ∀ x y, connected (E ++ [(w, p)]) x y → connected E (f x) (f y)).
  { induction 1 as [|x y z Hxy _ IH]; [apply rtc_refl|].
    etrans; [|exact IH].
    destruct Hxy as [Hin|Hin]; [by apply Hstep|].
    apply connected_sym. by apply Hstep. }
  specialize (Hf _ _ H). unfold f in Hf.
  by rewrite !decide_False in Hf.
Qed.

Lemma snoc_split {A} (E E1 E2 : list A) (x y : A) :
  E ++ [x] = E1 ++ y :: E2 →
  (E2 = [] ∧ E1 = E ∧ y = x) ∨ (∃ E2', E2 = E2' ++ [x] ∧ E = E1 ++ y :: E2').
Proof.
  intros H. destruct (decide (E2 = [])) as [->|Hne].
  - left. apply app_inj_tail in H as [-> ->]. done.
  - right. destruct (exists_last Hne) as [E2' [z ->]].
    exists E2'. change (E1 ++ y :: E2' ++ [z]) with (E1 ++ (y :: E2') ++ [z]) in H.
    rewrite app_assoc in H. apply app_inj_tail in H as [-> ->]. done.
Qed.

Lemma acyclic_nil : acyclic [].
Proof. intros [|? ?] a b E2 H; discriminate. Qed.

(** Hanging a fresh vertex on an acyclic graph keeps it acyclic. *)
Lemma acyclic_pendant E w p :
  acyclic E → untouched E w → p ≠ w → acyclic (E ++ [(w, p)]).
Proof.
  intros Hac Hw Hp E1 a b E2 Heq Hconn.
  apply snoc_split in Heq as [(-> & -> & [= -> ->])|(E2' & -> & ->)].
  - rewrite app_nil_r in Hconn. apply connected_isolated in Hconn; done.
  - assert (Hin : (a, b) ∈ E1 ++ (a, b) :: E2') by (apply elem_of_app; right; left).
    destruct (Hw _ _ Hin) as [Ha Hb].
    rewrite app_assoc in Hconn. apply connected_pendant in Hconn; try done.
    + by eapply Hac.
    + intros c d Hcd. apply Hw.
      apply elem_of_app in Hcd as [?|?]; apply elem_of_app; [by left|right; by right].
Qed.

(** *** Counting the tree *)

Fixpoint count_true (l : list bool) : nat :=
  match l with
  | [] => 0
  | b :: l' => (if b then 1 else 0) + count_true l'
  end%nat.

Lemma count_true_le l : (count_true l ≤ length l)%nat.
Proof. induction l as [|[] l IH]; simpl; lia. Qed.

Lemma count_true_insert l k :
  l !! k = Some false → count_true (<[k := true]> l) = S (count_true l).
Proof.
  revert k. induction l as [|b l IH]; intros [|k] H; simplify_eq/=; [done|].
  by rewrite IH.
Qed.

Lemma count_true_lt_false l :
  (count_true l < length l)%nat → ∃ j, l !! j = Some false.
Proof.
  induction l as [|b l IH]; simpl; [lia|].
  destruct b; [|by exists 0%nat].
  intros H. destruct IH as [j Hj]; [lia|]. by exists (S j).
Qed.

Lemma count_true_all l j :
  count_true l = length l → (j < length l)%nat → l !! j = Some true.
Proof.
  revert j. induction l as [|b l IH]; simpl; [lia|].
  intros j H Hj. pose proof (count_true_le l).
  destruct b; [|lia]. destruct j; [done|]. apply IH; lia.
Qed.

Lemma count_true_replicate n : count_true (replicate n false) = 0%nat.
Proof. induction n; simpl; lia. Qed.

(** *** Prim's loop *)

(** Every squared distance the loop can compute is below [float("inf")]:
    no coordinate is infinite or a NaN and no square overflows. *)
Definition finite_distances (points : list point) : Prop :=
  ∀ i j, (i < length points)%nat → (j < length points)%nat →
    (d2_between points i j <? infinity)%float = true.

Definition finite_distances_b (points : list point) : bool :=
  forallb (λ i, forallb (λ j, (d2_between points i j <? infinity)%float)
                        (seq 0 (length points)))
          (seq 0 (length points)).

(** Finite coordinates: neither infinite nor a NaN. *)
Definition finite_coordinates (points : list point) : Prop :=
  ∀ x y, (x, y) ∈ points → is_finite x = true ∧ is_finite y = true.

(** Four points a few metres apart. *)
Definition sample_points : list point :=
  [(0, 0); (3, 4); (3, 5); (0, 1)]%float.

(** Two points [2 ** 600] metres apart: the coordinates are finite, the
    square of their difference is not. *)
Definition overflow_points : list point :=
  [(0, 0); (0x1p600, 0)]%float.

(** Four points on a line, at x = 0, 2, 6 and 7. *)
Definition line_points : list point :=
  [(0, 0); (2, 0); (6, 0); (7, 0)]%float.

(** Two points at the same place and a third one away from them. *)
Definition twin_points : list point :=
  [(0, 0); (0, 0); (1, 1)]%float.

(** Outside the tree every point has a finite key and a parent inside. *)
Definition fringe_ok (s : prim) : Prop :=
  ∀ j, in_tree s !! j = Some false →
    (dist2 s !!! j <? infinity)%float = true ∧
    ∃ p, parent s !! j = Some (Z.of_nat p) ∧ in_tree s !! p = Some true.

Record prim_inv (n : nat) (s : prim) : Prop := {
  inv_len_tree : length (in_tree s) = n;
  inv_len_dist : length (dist2 s) = n;
  inv_len_parent : length (parent s) = n;
  inv_root : in_tree s !! 0%nat = Some true;
  inv_fringe : fringe_ok s;
  inv_edges : ∀ a b, (a, b) ∈ edges s →
     ∃ i j, a = Z.of_nat i ∧ b = Z.of_nat j ∧
            in_tree s !! i = Some true ∧ in_tree s !! j = Some true;
  inv_conn : ∀ j, in_tree s !! j = Some true → connected (edges s) (Z.of_nat j) 0;
  inv_acyclic : acyclic (edges s);
  inv_count : S (length (edges s)) = count_true (in_tree s) }.

(** What the relaxation loop leaves alone. *)
Definition same_tree (s s' : prim) : Prop :=
  in_tree s' = in_tree s ∧ edges s' = edges s ∧
  length (dist2 s') = length (dist2 s) ∧ length (parent s') = length (parent s).

(** The scan has picked a point outside the tree. *)
Definition found (s : prim) (acc : Z * float) : Prop :=
  ∃ k, acc.1 = Z.of_nat k ∧ in_tree s !! k = Some false.

Lemma same_tree_refl s : same_tree s s.
Proof. by repeat split. Qed.

Section prim_correct.
Variable points : list point.
Let n := length points.
Hypothesis finite_d2 : finite_distances points.

Lemma relax_step_ok k s j :
  (k < n)%nat → in_tree s !! k = Some true →
  length (in_tree s) = n → length (dist2 s) = n → length (parent s) = n →
  fringe_ok s →
  same_tree s (relax_step points k s j) ∧ fringe_ok (relax_step points k s j).
Proof.
  intros Hk Hkt L1 L2 L3 Hf. unfold relax_step.
  destruct (negb (in_tree s !!! j)) eqn:Hj; [|split; [apply same_tree_refl|done]].
  destruct (d2_between points k j <? dist2 s !!! j)%float eqn:Hlt;
    [|split; [apply same_tree_refl|done]].
  split; [repeat split; simpl; by rewrite ?length_insert|].
  intros i Hi. simpl in *.
  assert (Hin : (i < n)%nat) by (apply lookup_lt_Some in Hi; lia).
  destruct (decide (j = i)) as [->|Hne].
  - rewrite list_lookup_total_insert_eq by lia. split; [by apply finite_d2|].
    exists k. by rewrite list_lookup_insert_eq by lia.
  - rewrite list_lookup_total_insert_ne by done.
    rewrite list_lookup_insert_ne by done. by apply Hf.
Qed.

Lemma relax_ok k s :
  (k < n)%nat → in_tree s !! k = Some true →
  length (in_tree s) = n → length (dist2 s) = n → length (parent s) = n →
  fringe_ok s →
  same_tree s (mst_relax points k s) ∧ fringe_ok (mst_relax points k s).
Proof.
  intros Hk Hkt L1 L2 L3 Hf. unfold mst_relax.
  generalize (seq 0 (length points)) as js. intros js.
  induction js as [|j js IH] using rev_ind; [split; [apply same_tree_refl|done]|].
  rewrite foldl_snoc. destruct IH as [(E1 & E2 & E3 & E4) IHf].
  destruct (relax_step_ok k (foldl (relax_step points k) s js) j)
    as [(F1 & F2 & F3 & F4) Ff]; try done; try congruence.
  split; [|done]. repeat split; congruence.
Qed.

Lemma select_step_found s acc j :
  (j < length (in_tree s))%nat → found s acc → found s (select_step s acc j).
Proof.
  intros Hj H. destruct acc as [k best]. unfold select_step.
  destruct (negb (in_tree s !!! j)) eqn:Hn; simpl; [|done].
  destruct (dist2 s !!! j <? best)%float; [|done].
  exists j. split; [done|]. apply negb_true_iff in Hn.
  rewrite <- Hn. by apply list_lookup_lookup_total_lt.
Qed.

Lemma select_found s js acc :
  (∀ j, j ∈ js → (j < length (in_tree s))%nat) →
  found s acc → found s (foldl (select_step s) acc js).
Proof.
  revert acc. induction js as [|j js IH]; intros acc Hjs H; [done|].
  simpl. apply IH; [intros; apply Hjs; by right|].
  apply select_step_found; [apply Hjs; by left|done].
Qed.

(** While nothing is picked [best] is still [inf], so the first point outside
    the tree whose key is finite is picked. *)
Lemma select_first s js j :
  (∀ i, i ∈ js → (i < length (in_tree s))%nat) →
  j ∈ js → in_tree s !! j = Some false → (dist2 s !!! j <? infinity)%float = true →
  found s (foldl (select_step s) (-1, infinity) js).
Proof.
  induction js as [|i js IH]; intros Hjs Hin Hj Hd; [by apply elem_of_nil in Hin|].
  cbn [foldl]. unfold select_step at 2.
  destruct (negb (in_tree s !!! i) && (dist2 s !!! i <? infinity)%float) eqn:Hc.
  - apply select_found; [intros; apply Hjs; by right|].
    exists i. split; [done|].
    apply andb_true_iff in Hc as [Hc _]. apply negb_true_iff in Hc.
    rewrite <- Hc. apply list_lookup_lookup_total_lt. apply Hjs. by left.
  - apply elem_of_cons in Hin as [->|Hin].
    + apply list_lookup_total_correct in Hj. rewrite Hj, Hd in Hc. done.
    + apply IH; [intros; apply Hjs; by right|done..].
Qed.

Lemma select_ok s :
  prim_inv n s → (count_true (in_tree s) < n)%nat →
  ∃ k best, mst_select n s = (Z.of_nat k, best) ∧ in_tree s !! k = Some false.
Proof.
  intros Hinv Hc.
  destruct (count_true_lt_false (in_tree s)) as [j Hj];
    [by rewrite (inv_len_tree n s Hinv)|].
  destruct (inv_fringe n s Hinv j Hj) as [Hd _].
  pose proof (lookup_lt_Some _ _ _ Hj) as Hjn.
  destruct (select_first s (seq 0 n) j) as (k & Hk & Hkt); try done.
  - intros i Hi. apply elem_of_seq in Hi. rewrite (inv_len_tree n s Hinv). lia.
  - apply elem_of_seq. rewrite (inv_len_tree n s Hinv) in Hjn. lia.
  - unfold mst_select. destruct (foldl _ _ _) as [kz best]. simpl in Hk. subst.
    by exists k, best.
Qed.

Lemma grow_inv s k :
  prim_inv n s → in_tree s !! k = Some false →
  prim_inv n (mst_relax points k (grow k s)) ∧
  in_tree (mst_relax points k (grow k s)) = <[k := true]> (in_tree s).
Proof.
  intros Hinv Hk.
  pose proof (lookup_lt_Some _ _ _ Hk) as Hkn. rewrite (inv_len_tree n s Hinv) in Hkn.
  destruct (inv_fringe n s Hinv k Hk) as [_ (p & Hp & Hpt)].
  assert (Hpk : p ≠ k) by (intros ->; congruence).
  assert (Hpar : parent s !!! k = Z.of_nat p) by by apply list_lookup_total_correct.
  assert (Hkeep : ∀ i, in_tree s !! i = Some true →
                       <[k := true]> (in_tree s) !! i = Some true).
  { intros i Hi. rewrite list_lookup_insert_ne; [done|]. intros ->. congruence. }
  assert (Hnew : <[k := true]> (in_tree s) !! k = Some true).
  { apply list_lookup_insert_eq. by rewrite (inv_len_tree n s Hinv). }
  assert (Hunt : untouched (edges s) (Z.of_nat k)).
  { intros a b Hab. destruct (inv_edges n s Hinv a b Hab) as (i & j & -> & -> & Hi & Hj).
    split; intros E; apply Nat2Z.inj in E; subst; congruence. }
  destruct (relax_ok k (grow k s)) as [(E1 & E2 & E3 & E4) Hf]; simpl; try done.
  - by rewrite length_insert, (inv_len_tree n s Hinv).
  - apply (inv_len_dist n s Hinv).
  - apply (inv_len_parent n s Hinv).
  - intros j Hj. simpl in Hj.
    assert (Hjk : j ≠ k) by (intros ->; congruence).
    rewrite list_lookup_insert_ne in Hj by done.
    destruct (inv_fringe n s Hinv j Hj) as [Hd (q & Hq & Hqt)].
    split; [done|]. exists q. split; [done|]. by apply Hkeep.
  - simpl in *. split; [|done]. constructor; rewrite ?E1, ?E2; simpl.
    + by rewrite length_insert, (inv_len_tree n s Hinv).
    + rewrite E3. apply (inv_len_dist n s Hinv).
    + rewrite E4. apply (inv_len_parent n s Hinv).
    + apply Hkeep, (inv_root n s Hinv).
    + done.
    + intros a b Hab. apply elem_of_app in Hab as [Hab|Hab].
      * destruct (inv_edges n s Hinv a b Hab) as (i & j & -> & -> & Hi & Hj).
        exists i, j. repeat split; by try apply Hkeep.
      * apply list_elem_of_singleton in Hab. injection Hab as -> ->.
        exists k, p. rewrite Hpar. repeat split; [done|by apply Hkeep].
    + intros j Hj. destruct (decide (j = k)) as [->|Hjk].
      * eapply rtc_l; [left; apply elem_of_app; right; by left|].
        rewrite Hpar. eapply connected_mono; [|apply (inv_conn n s Hinv p Hpt)].
        intros e He. apply elem_of_app. by left.
      * rewrite list_lookup_insert_ne in Hj by done.
        eapply connected_mono; [|apply (inv_conn n s Hinv j Hj)].
        intros e He. apply elem_of_app. by left.
    + rewrite Hpar. apply acyclic_pendant; [apply (inv_acyclic n s Hinv)|done|].
      intros E. apply Nat2Z.inj in E. done.
    + rewrite length_app. simpl. rewrite count_true_insert by done.
      rewrite <- (inv_count n s Hinv). lia.
Qed.

(** With finite distances the [break] is never taken: every round adds a
    point, and after [n - 1] rounds the tree holds all of them. *)
Lemma mst_loop_inv rounds s :
  prim_inv n s → (count_true (in_tree s) + rounds = n)%nat →
  prim_inv n (mst_loop points rounds s) ∧
  count_true (in_tree (mst_loop points rounds s)) = n.
Proof.
  revert s. induction rounds as [|r IH]; intros s Hinv Hc; simpl.
  - split; [done|lia].
  - destruct (select_ok s Hinv) as (k & best & Hsel & Hk); [lia|].
    fold n. rewrite Hsel.
    destruct (Z.eqb_spec (Z.of_nat k) (-1)) as [E|_]; [lia|].
    rewrite Nat2Z.id.
    destruct (grow_inv s k Hinv Hk) as [Hinv' Htree].
    apply IH; [done|].
    rewrite Htree, count_true_insert by done. lia.
Qed.

(** The first loop gave these points a finite key and parent 0. *)
Definition keyed (s : prim) (js : list nat) : Prop :=
  ∀ j, j ∈ js →
    (dist2 s !!! j <? infinity)%float = true ∧ parent s !! j = Some (Z.of_nat 0).

Lemma init_fold js s :
  (∀ j, j ∈ js → (0 < j < n)%nat) → length (dist2 s) = n → length (parent s) = n →
  in_tree (foldl (init_step points) s js) = in_tree s ∧
  edges (foldl (init_step points) s js) = edges s ∧
  length (dist2 (foldl (init_step points) s js)) = n ∧
  length (parent (foldl (init_step points) s js)) = n ∧
  keyed (foldl (init_step points) s js) js.
Proof.
  induction js as [|x js IH] using rev_ind; intros Hjs L2 L3.
  - split_and!; try done. intros j Hj. by apply elem_of_nil in Hj.
  - rewrite foldl_snoc.
    destruct IH as (E1 & E2 & E3 & E4 & IH);
      [intros; apply Hjs, elem_of_app; by left|done..|].
    assert (Hx : (0 < x < n)%nat) by (apply Hjs, elem_of_app; right; by left).
    set (s1 := foldl (init_step points) s js) in *.
    unfold init_step. simpl.
    rewrite !length_insert. split_and!; try done.
    intros j Hj. simpl. destruct (decide (x = j)) as [->|Hne].
    + rewrite list_lookup_total_insert_eq by lia.
      rewrite list_lookup_insert_eq by lia.
      split; [apply finite_d2; lia|done].
    + rewrite list_lookup_total_insert_ne by done.
      rewrite list_lookup_insert_ne by done.
      apply IH. apply elem_of_app in Hj as [Hj|Hj]; [done|].
      apply list_elem_of_singleton in Hj. congruence.
Qed.

Lemma mst_init_inv :
  (1 ≤ n)%nat →
  prim_inv n (mst_init points) ∧ count_true (in_tree (mst_init points)) = 1%nat.
Proof.
  intros Hn. unfold mst_init. fold n.
  set (s0 := Prim _ _ _ _).
  destruct (init_fold (seq 1 (n - 1)) s0) as (E1 & E2 & E3 & E4 & Hfr).
  { intros j Hj. apply elem_of_seq in Hj. lia. }
  { apply length_replicate. }
  { apply length_replicate. }
  assert (Hroot : <[0%nat := true]> (replicate n false) !! 0%nat = Some true).
  { apply list_lookup_insert_eq. rewrite length_replicate. lia. }
  assert (Hcount : count_true (<[0%nat := true]> (replicate n false)) = 1%nat).
  { rewrite count_true_insert, count_true_replicate; [done|].
    apply lookup_replicate_2. lia. }
  split; [|by rewrite E1].
  constructor; rewrite ?E1, ?E2; simpl; try done.
  - by rewrite length_insert, length_replicate.
  - intros j Hj. rewrite E1 in Hj. simpl in Hj.
    pose proof (lookup_lt_Some _ _ _ Hj) as Hjn.
    rewrite length_insert, length_replicate in Hjn.
    assert (Hj0 : j ≠ 0%nat) by (intros ->; congruence).
    destruct (Hfr j) as [Hd Hp]; [apply elem_of_seq; lia|].
    split; [done|]. exists 0%nat. split; [done|]. by rewrite E1.
  - intros a b Hab. by apply elem_of_nil in Hab.
  - intros j Hj. destruct (decide (j = 0%nat)) as [->|Hj0]; [apply rtc_refl|].
    rewrite list_lookup_insert_ne in Hj by done.
    apply lookup_replicate_1 in Hj as [? _]. done.
  - apply acyclic_nil.
Qed.

Lemma mst_tree : (1 ≤ n)%nat → spanning_tree n (build_mst_edges points).
Proof.
  intros Hn. unfold build_mst_edges. fold n.
  destruct (Nat.leb_spec n 1) as [H1|H1].
  - assert (Hn1 : n = 1%nat) by lia. rewrite Hn1.
    unfold spanning_tree. split_and!; [done| | |apply acyclic_nil].
    + intros a b Hab. by apply elem_of_nil in Hab.
    + intros u v Hu Hv. assert (u = v) as -> by lia. apply rtc_refl.
  - destruct mst_init_inv as [Hinv0 Hc0]; [done|].
    destruct (mst_loop_inv (n - 1) (mst_init points)) as [Hinv Hc]; [done|lia|].
    set (s := mst_loop points (n - 1) (mst_init points)) in *.
    assert (Hall : ∀ j, (j < n)%nat → in_tree s !! j = Some true).
    { intros j Hj. apply count_true_all; rewrite (inv_len_tree n s Hinv); done. }
    unfold spanning_tree. split_and!.
    + pose proof (inv_count n s Hinv). lia.
    + intros a b Hab.
      destruct (inv_edges n s Hinv a b Hab) as (i & j & -> & -> & Hi & Hj).
      apply lookup_lt_Some in Hi, Hj. rewrite (inv_len_tree n s Hinv) in Hi, Hj. lia.
    + intros u v Hu Hv.
      etrans; [|apply connected_sym].
      * rewrite <- (Z2Nat.id u) by lia. apply (inv_conn n s Hinv), Hall. lia.
      * rewrite <- (Z2Nat.id v) by lia. apply (inv_conn n s Hinv), Hall. lia.
    + apply (inv_acyclic n s Hinv).
Qed.

End prim_correct.

Lemma finite_distances_check points :
  finite_distances_b points = true → finite_distances points.
Proof.
  unfold finite_distances_b, finite_distances. intros H i j Hi Hj.
  rewrite forallb_forall in H. specialize (H i).
  rewrite forallb_forall in H. apply H; apply in_seq; lia.
Qed.

Lemma mst_few_points points :
  (length points ≤ 1)%nat → build_mst_edges points = [].
Proof.
  intros H. unfold build_mst_edges.
  by destruct (Nat.leb_spec (length points) 1) as [_|?]; [|lia].
Qed.

(** C4, as the code has it.  For every list of points whose pairwise squared
    distances all compute to a finite number, [build_mst_edges] returns
    exactly [n - 1] edges between indices below [n] that connect all [n]
    indices and hold no cycle; for [n <= 1] it returns no edges. *)
Theorem mst_spanning_tree (points : list point) :
  finite_distances points →
  ((length points ≤ 1)%nat → build_mst_edges points = []) ∧
  ((1 ≤ length points)%nat → spanning_tree (length points) (build_mst_edges points)).
Proof.
  intros Hfin. split; [apply mst_few_points|].
  intros Hn. by apply mst_tree.
Qed.

Lemma mst_spanning_tree_witness :
  finite_distances sample_points ∧
  spanning_tree 4 (build_mst_edges sample_points).
Proof.
  assert (H : finite_distances sample_points)
    by (apply finite_distances_check; vm_compute; reflexivity).
  split; [exact H|].
  destruct (mst_spanning_tree sample_points H) as [_ Ht].
  apply Ht. simpl. lia.
Defined.

(** C4 as stated fails: two points with finite coordinates whose squared
    distance overflows to [inf].  [dist2[1]] is [inf], [inf < inf] is false,
    the scan leaves [k = -1] and the loop breaks with no edge. *)
Lemma mst_overflow_counterexample :
  finite_coordinates overflow_points ∧
  length overflow_points = 2%nat ∧
  build_mst_edges overflow_points = [] ∧
  ¬ spanning_tree (length overflow_points) (build_mst_edges overflow_points).
Proof.
  split_and!; [|done|vm_compute; reflexivity|].
  - intros x y Hin. unfold overflow_points in Hin.
    repeat (apply elem_of_cons in Hin as [[= -> ->]|Hin]; [by vm_compute|]).
    by apply elem_of_nil in Hin.
  - intros [Hlen _]. vm_compute in Hlen. discriminate.
Qed.

(** *** Nearest neighbours *)

(** [d2 <= max_m2]. *)
Definition in_range (max_m2 : float) (c : float * nat) : Prop :=
  (c.1 <=? max_m2)%float = true.

#[global] Instance in_range_dec max_m2 c : Decision (in_range max_m2 c).
Proof. unfold in_range. apply _. Defined.

(** The other points of [i], nearest first: by squared distance ascending, and
    among equal distances by index ascending (the candidates are listed by
    ascending index and the sort is stable). *)
Definition others_by_distance (points : list point) (i : nat) : list (float * nat) :=
  sort_by_key (knn_dlist points i).

(** The up-to-[k] nearest other points of [i] among those within range. *)
Definition nearest (points : list point) (i : nat) (k : Z) (max_m2 : float) : list nat :=
  (take (Z.to_nat k) (filter (in_range max_m2) (others_by_distance points i))).*2.

(** The edge set the specification describes: the union over every point of
    the canonical pairs with its nearest points. *)
Definition claimed_knn (points : list point) (k : Z) (max_m : float) : gset edge :=
  ⋃ ((λ i, list_to_set (canon i <$> nearest points i k (max_m * max_m)%float))
       <$> seq 0 (length points)).

(** Within range and not linked to [i] yet. *)
Definition fresh_in_range (i : nat) (max_m2 : float) (out : gset edge)
    (c : float * nat) : Prop :=
  in_range max_m2 c ∧ canon i c.2 ∉ out.

#[global] Instance fresh_in_range_dec i max_m2 out c :
  Decision (fresh_in_range i max_m2 out c).
Proof. unfold fresh_in_range. apply _. Defined.

(** How many pairs a point that has added [added] may still add: the count is
    tested after an addition only, so one more is always possible. *)
Definition quota (k added : Z) : nat := Z.to_nat (Z.max 1 (k - added)).

(** What the code does for point [i]: it links [i] to its first [max k 1]
    candidates, nearest first, among those within range whose pair is not in
    the set yet. *)
Definition knn_round (points : list point) (k : Z) (max_m2 : float)
    (out : gset edge) (i : nat) : gset edge :=
  out ∪ list_to_set
    (canon i <$> (take (quota k 0)
                       (filter (fresh_in_range i max_m2 out)
                               (others_by_distance points i))).*2).

Definition knn_rounds (points : list point) (k : Z) (max_m : float) : gset edge :=
  foldl (knn_round points k (max_m * max_m)%float) ∅ (seq 0 (length points)).

(** An edge of the result: the canonical pair of two different points within
    range of each other, as the code computed their distance. *)
Definition knn_edge_ok (points : list point) (max_m2 : float) (e : edge) : Prop :=
  ∃ i j, e = canon i j ∧ i ≠ j ∧ (i < length points)%nat ∧ (j < length points)%nat ∧
         (d2_between points i j <=? max_m2)%float = true.

(** A candidate of point [i]. *)
Definition candidate_of (points : list point) (i : nat) (c : float * nat) : Prop :=
  c.2 ≠ i ∧ (c.2 < length points)%nat ∧ c.1 = d2_between points i c.2.

(** No squared distance of the call is a NaN. *)
Definition no_nan_distance (points : list point) : Prop :=
  ∀ i j, (i < length points)%nat → (j < length points)%nat →
    is_nan (d2_between points i j) = false.

Definition no_nan_distance_b (points : list point) : bool :=
  forallb (λ i, forallb (λ j, negb (is_nan (d2_between points i j)))
                        (seq 0 (length points)))
          (seq 0 (length points)).

(** Candidate [c] comes before candidate [c']: it is nearer, or as near and of
    smaller index. *)
Definition nearer (c c' : float * nat) : Prop :=
  (c.1 <? c'.1)%float = true ∨ ((c.1 =? c'.1)%float = true ∧ (c.2 < c'.2)%nat).

(** The place of a float that is no NaN in the order of the numbers: its
    class (negative infinity, negative, zero, positive, positive infinity),
    then exponent and mantissa, both counted downwards below zero. *)
Definition rank (x : float) : Z * Z * Z :=
  match Prim2SF x with
  | S754_zero _ | S754_nan => (0, 0, 0)
  | S754_infinity s => (if s then -2 else 2, 0, 0)
  | S754_finite s m e => if s then (-1, - e, Z.neg m) else (1, e, Z.pos m)
  end.

Definition rank_lt (a b : Z * Z * Z) : Prop :=
  a.1.1 < b.1.1 ∨ (a.1.1 = b.1.1 ∧ (a.1.2 < b.1.2 ∨ (a.1.2 = b.1.2 ∧ a.2 < b.2))).

Lemma insert_by_key_perm x l : insert_by_key x l ≡ₚ x :: l.
Proof.
  induction l as [|y l IH]; simpl; [done|].
  destruct (y.1 <? x.1)%float; [|done].
  rewrite IH. apply Permutation_swap.
Qed.

Lemma sort_by_key_perm l : sort_by_key l ≡ₚ l.
Proof.
  induction l as [|x l IH]; simpl; [done|].
  rewrite insert_by_key_perm. by rewrite IH.
Qed.

Lemma knn_dlist_fold points i js acc :
  foldl (dlist_step points i) acc js =
  acc ++ ((λ j, (d2_between points i j, j)) <$> filter (λ j, j ≠ i) js).
Proof.
  revert acc. induction js as [|j js IH]; intros acc; simpl.
  - by rewrite app_nil_r.
  - rewrite IH. unfold dlist_step.
    destruct (Nat.eqb_spec i j) as [->|Hne].
    + by rewrite filter_cons_False by (intros H; by apply H).
    + rewrite filter_cons_True by done. simpl. by rewrite <- app_assoc.
Qed.

Lemma knn_dlist_eq points i :
  knn_dlist points i =
  (λ j, (d2_between points i j, j)) <$> filter (λ j, j ≠ i) (seq 0 (length points)).
Proof. unfold knn_dlist. by rewrite knn_dlist_fold. Qed.

Lemma others_candidates points i c :
  c ∈ others_by_distance points i → candidate_of points i c.
Proof.
  unfold others_by_distance. rewrite sort_by_key_perm, knn_dlist_eq.
  intros Hc. apply list_elem_of_fmap in Hc as (j & -> & Hj).
  apply list_elem_of_filter in Hj as [Hne Hj]. apply elem_of_seq in Hj.
  unfold candidate_of. simpl. split_and!; [done|lia|done].
Qed.

Lemma others_nodup points i : NoDup (others_by_distance points i).*2.
Proof.
  unfold others_by_distance. rewrite sort_by_key_perm, knn_dlist_eq.
  rewrite <- list_fmap_compose.
  apply NoDup_fmap_2_strong; [|apply NoDup_filter, NoDup_seq].
  intros x y _ _ H. exact H.
Qed.

Lemma canon_inj i j j' : j ≠ i → j' ≠ i → canon i j = canon i j' → j = j'.
Proof.
  unfold canon. intros Hj Hj'.
  destruct (Nat.ltb_spec i j), (Nat.ltb_spec i j'); intros E;
    pose proof (f_equal fst E) as E1; pose proof (f_equal snd E) as E2;
    simpl in E1, E2; lia.
Qed.

Lemma filter_ext_in {A} (P Q : A → Prop)
    `{∀ x, Decision (P x)} `{∀ x, Decision (Q x)} (l : list A) :
  (∀ x, x ∈ l → (P x ↔ Q x)) → filter P l = filter Q l.
Proof.
  induction l as [|x l IH]; intros Hl; [done|].
  rewrite !filter_cons.
  rewrite IH by (intros y Hy; apply Hl; by right).
  destruct (decide (P x)) as [HP|HP], (decide (Q x)) as [HQ|HQ]; try done;
    exfalso; apply (Hl x) in HP || apply (Hl x) in HQ; try done; by left.
Qed.

Lemma take_filter_and {A} (P Q : A → Prop)
    `{∀ x, Decision (P x)} `{∀ x, Decision (Q x)} (l : list A) k c :
  c ∈ take k (filter P l) → Q c → c ∈ take k (filter (λ x, P x ∧ Q x) l).
Proof.
  revert k. induction l as [|x l IH]; intros k Hc HQ; [done|].
  rewrite filter_cons in Hc. rewrite filter_cons.
  destruct (decide (P x)) as [HP|HP].
  - destruct k as [|k]; [by apply elem_of_nil in Hc|].
    simpl in Hc. apply elem_of_cons in Hc as [->|Hc].
    + rewrite decide_True by done. by left.
    + specialize (IH k Hc HQ). destruct (decide (P x ∧ Q x)); [by right|].
      apply elem_of_take in IH as (m & Hm & Hlt).
      apply elem_of_take. exists m. split; [done|lia].
  - rewrite decide_False by tauto. by apply IH.
Qed.

#[local] Set Warnings "-clear-no-such-hyp".

(** The scan of one point, in closed form. *)
Lemma knn_scan_spec i k max_m2 dl added out :
  NoDup dl.*2 → (∀ c, c ∈ dl → c.2 ≠ i) →
  knn_scan i k max_m2 dl added out =
  out ∪ list_to_set
    (canon i <$> (take (quota k added) (filter (fresh_in_range i max_m2 out) dl)).*2).
Proof.
  revert added out. induction dl as [|[d2 j] rest IH]; intros added out Hnd Hne.
  - rewrite filter_nil, take_nil. simpl. clear. set_solver.
  - simpl in Hnd. apply NoDup_cons in Hnd as [Hj Hnd].
    assert (Hrest : ∀ c, c ∈ rest → c.2 ≠ i) by (intros c Hc; apply Hne; by right).
    assert (Hji : j ≠ i) by (apply (Hne (d2, j)); by left).
    simpl. destruct (d2 <=? max_m2)%float eqn:Hr.
    + destruct (decide (canon i j ∉ out)) as [Hnew|Hold].
      * rewrite filter_cons_True by done.
        rewrite Z.geb_leb. destruct (Z.leb_spec k (added + 1)) as [Hk|Hk].
        -- assert (quota k added = 1%nat) as -> by (unfold quota; lia).
           simpl. rewrite ?take_0. simpl. clear. set_solver.
        -- assert (quota k added = S (quota k (added + 1))) as ->
             by (unfold quota; lia).
           rewrite IH by done. simpl.
           rewrite (filter_ext_in (fresh_in_range i max_m2 (out ∪ {[canon i j]}))
                                  (fresh_in_range i max_m2 out)).
           ++ set_solver.
           ++ intros c Hc. unfold fresh_in_range.
              assert (canon i c.2 ≠ canon i j); [|set_solver].
              intros E. apply canon_inj in E; [|by apply Hrest|done].
              apply Hj. rewrite <- E. apply list_elem_of_fmap. by exists c.
      * rewrite filter_cons_False by (intros [_ ?]; done). by apply IH.
    + rewrite filter_cons_False by (intros [E _]; unfold in_range in E; simpl in E; congruence).
      by apply IH.
Qed.

Lemma knn_point_round points k max_m2 out i :
  knn_point points k max_m2 out i = knn_round points k max_m2 out i.
Proof.
  unfold knn_point, knn_round. apply knn_scan_spec.
  - apply others_nodup.
  - intros c Hc. by destruct (others_candidates points i c Hc).
Qed.

Lemma build_knn_rounds points k max_m :
  build_knn_edges points k max_m = knn_rounds points k max_m.
Proof.
  unfold build_knn_edges, knn_rounds.
  generalize (seq 0 (length points)) as l. generalize (∅ : gset edge) as out.
  intros out l. revert out. induction l as [|i l IH]; intros out; [done|].
  simpl. by rewrite knn_point_round, IH.
Qed.

Lemma knn_round_ok points k max_m2 out i e :
  (∀ e', e' ∈ out → knn_edge_ok points max_m2 e') → (i < length points)%nat →
  e ∈ knn_round points k max_m2 out i → knn_edge_ok points max_m2 e.
Proof.
  intros Hout Hi He. unfold knn_round in He.
  apply elem_of_union in He as [He|He]; [by apply Hout|].
  apply elem_of_list_to_set, list_elem_of_fmap in He as (j & -> & Hj).
  apply list_elem_of_fmap in Hj as (c & -> & Hc).
  apply elem_of_take in Hc as (m & Hc & _).
  apply list_elem_of_lookup_2, list_elem_of_filter in Hc as [[Hr _] Hc].
  destruct (others_candidates points i c Hc) as (Hne & Hlt & Hd).
  exists i, c.2. split_and!; try done. rewrite <- Hd. exact Hr.
Qed.

Lemma knn_rounds_ok points k max_m2 l out e :
  (∀ e', e' ∈ out → knn_edge_ok points max_m2 e') →
  (∀ i, i ∈ l → (i < length points)%nat) →
  e ∈ foldl (knn_round points k max_m2) out l → knn_edge_ok points max_m2 e.
Proof.
  revert out. induction l as [|i l IH]; intros out Hout Hl He; [by apply Hout|].
  simpl in He. apply IH in He; [done| |intros; apply Hl; by right].
  intros e' He'. eapply knn_round_ok; [done|apply Hl; by left|done].
Qed.

Lemma knn_rounds_mono points k max_m2 l out e :
  e ∈ out → e ∈ foldl (knn_round points k max_m2) out l.
Proof.
  revert out. induction l as [|i l IH]; intros out He; [done|].
  simpl. apply IH. unfold knn_round. set_solver.
Qed.

Lemma knn_round_nearest points k max_m2 out i j :
  1 ≤ k → j ∈ nearest points i k max_m2 → canon i j ∈ knn_round points k max_m2 out i.
Proof.
  intros Hk Hj. unfold nearest in Hj.
  apply list_elem_of_fmap in Hj as (c & -> & Hc).
  unfold knn_round. apply elem_of_union.
  destruct (decide (canon i c.2 ∈ out)) as [Hin|Hnew]; [by left|right].
  apply elem_of_list_to_set, list_elem_of_fmap. exists c.2. split; [done|].
  apply list_elem_of_fmap. exists c. split; [done|].
  assert (quota k 0 = Z.to_nat k) as -> by (unfold quota; lia).
  apply (take_filter_and _ (λ x, canon i x.2 ∉ out)) in Hc; [|done].
  erewrite filter_ext_in; [exact Hc|]. intros x _. done.
Qed.

Lemma knn_rounds_nearest points k max_m2 l out i j :
  1 ≤ k → i ∈ l → j ∈ nearest points i k max_m2 →
  canon i j ∈ foldl (knn_round points k max_m2) out l.
Proof.
  intros Hk. revert out. induction l as [|x l IH]; intros out Hi Hj;
    [by apply elem_of_nil in Hi|].
  simpl. apply elem_of_cons in Hi as [->|Hi]; [|by apply IH].
  apply knn_rounds_mono. by apply knn_round_nearest.
Qed.

(** The order of the floats that are no NaN. *)
Lemma is_nan_Prim2SF x : is_nan x = false → Prim2SF x ≠ S754_nan.
Proof.
  unfold is_nan. rewrite FloatAxioms.eqb_spec. intros H E. rewrite E in H. discriminate.
Qed.

Lemma compare_cont_spec m1 m2 :
  CompareSpec (Z.pos m1 = Z.pos m2) (Z.pos m1 < Z.pos m2) (Z.pos m2 < Z.pos m1)
    (Pos.compare_cont Eq m1 m2).
Proof.
  change (Pos.compare_cont Eq m1 m2) with (m1 ?= m2)%positive.
  destruct (Pos.compare_spec m1 m2); constructor; [congruence|lia|lia].
Qed.

Lemma ltb_rank x y :
  is_nan x = false → is_nan y = false →
  (x <? y)%float = true ↔ rank_lt (rank x) (rank y).
Proof.
  intros Hx%is_nan_Prim2SF Hy%is_nan_Prim2SF.
  rewrite FloatAxioms.ltb_spec. unfold rank, SFltb, SFcompare, rank_lt.
  destruct (Prim2SF x) as [[]|[]| |[] m1 e1], (Prim2SF y) as [[]|[]| |[] m2 e2];
    try done; simpl; try (split; [intros; lia|done]); try (split; [discriminate|lia]).
  - destruct (Z.compare_spec e1 e2), (compare_cont_spec m1 m2); simpl;
      split; try discriminate; try lia.
  - destruct (Z.compare_spec e1 e2), (compare_cont_spec m1 m2); simpl;
      split; try discriminate; try lia.
Qed.

Lemma eqb_rank x y :
  is_nan x = false → is_nan y = false →
  (x =? y)%float = true ↔ rank x = rank y.
Proof.
  intros Hx%is_nan_Prim2SF Hy%is_nan_Prim2SF.
  rewrite FloatAxioms.eqb_spec. unfold rank, SFeqb, SFcompare.
  destruct (Prim2SF x) as [[]|[]| |[] m1 e1], (Prim2SF y) as [[]|[]| |[] m2 e2];
    try done; simpl.
  - destruct (Z.compare_spec e1 e2), (compare_cont_spec m1 m2); simpl;
      split; intros E; try discriminate; try congruence; injection E; lia.
  - destruct (Z.compare_spec e1 e2), (compare_cont_spec m1 m2); simpl;
      split; intros E; try discriminate; try congruence; injection E; lia.
Qed.

(** The candidates of a point are sorted, nearest first. *)
Lemma no_nan_distance_check points :
  no_nan_distance_b points = true → no_nan_distance points.
Proof.
  unfold no_nan_distance_b, no_nan_distance. intros H i j Hi Hj.
  rewrite forallb_forall in H. specialize (H i).
  rewrite forallb_forall in H. apply negb_true_iff, H; apply in_seq; lia.
Qed.

Lemma nearer_of_not_less (x y : float * nat) :
  is_nan x.1 = false → is_nan y.1 = false →
  (y.1 <? x.1)%float = false → (x.2 < y.2)%nat → nearer x y.
Proof.
  intros Hx Hy Hlt Hj. unfold nearer.
  rewrite (ltb_rank _ _ Hx Hy), (eqb_rank _ _ Hx Hy).
  apply not_true_iff_false in Hlt. rewrite (ltb_rank _ _ Hy Hx) in Hlt.
  unfold rank_lt in *.
  destruct (rank x.1) as [[a b] c], (rank y.1) as [[a' b'] c']; simpl in *.
  destruct (decide (a = a' ∧ b = b' ∧ c = c')) as [(-> & -> & ->)|]; [by right|].
  left. lia.
Qed.

Lemma nearer_trans_le (x y z : float * nat) :
  is_nan x.1 = false → is_nan y.1 = false → is_nan z.1 = false →
  (y.1 <? x.1)%float = false → nearer y z → (x.2 < z.2)%nat → nearer x z.
Proof.
  intros Hx Hy Hz Hlt Hyz Hj. unfold nearer in *.
  rewrite (ltb_rank _ _ Hy Hz), (eqb_rank _ _ Hy Hz) in Hyz.
  rewrite (ltb_rank _ _ Hx Hz), (eqb_rank _ _ Hx Hz).
  apply not_true_iff_false in Hlt. rewrite (ltb_rank _ _ Hy Hx) in Hlt.
  unfold rank_lt in *.
  destruct (rank x.1) as [[a b] c], (rank y.1) as [[a' b'] c'],
    (rank z.1) as [[a'' b''] c'']; simpl in *.
  destruct (decide (a = a'' ∧ b = b'' ∧ c = c'')) as [(-> & -> & ->)|]; [by right|].
  left. destruct Hyz as [?|[[= -> -> ->] ?]]; lia.
Qed.

Lemma insert_by_key_sorted x l :
  is_nan x.1 = false → Forall (λ y, is_nan y.1 = false) l →
  Forall (λ y, (x.2 < y.2)%nat) l →
  StronglySorted nearer l → StronglySorted nearer (insert_by_key x l).
Proof.
  intros Hx. induction l as [|y l IH]; intros Hnan Hj Hs; simpl.
  - by repeat constructor.
  - apply Forall_cons in Hnan as [Hy Hnan]. apply Forall_cons in Hj as [Hxy Hj].
    apply StronglySorted_inv in Hs as [Hs Hyl].
    destruct (y.1 <? x.1)%float eqn:E.
    + constructor; [by apply IH|].
      rewrite insert_by_key_perm. constructor; [by left|done].
    + constructor; [by constructor|].
      constructor; [by apply nearer_of_not_less|].
      rewrite Forall_forall in Hyl, Hnan, Hj |- *. intros z Hz.
      apply (nearer_trans_le x y z); auto.
Qed.

Lemma sort_by_key_sorted l :
  Forall (λ y, is_nan y.1 = false) l → StronglySorted lt l.*2 →
  StronglySorted nearer (sort_by_key l).
Proof.
  induction l as [|x l IH]; intros Hnan Hj; simpl; [constructor|].
  apply Forall_cons in Hnan as [Hx Hnan]. rewrite fmap_cons in Hj.
  apply StronglySorted_inv in Hj as [Hj Hxl].
  apply insert_by_key_sorted; [done| | |by apply IH].
  - by rewrite sort_by_key_perm.
  - rewrite sort_by_key_perm. rewrite Forall_fmap in Hxl. exact Hxl.
Qed.

Lemma StronglySorted_filter {A} (R : relation A) (P : A → Prop) `{∀ x, Decision (P x)} l :
  StronglySorted R l → StronglySorted R (filter P l).
Proof.
  induction 1 as [|x l Hs IH Hx]; [constructor|].
  rewrite filter_cons. destruct (decide (P x)); [|done].
  constructor; [done|]. rewrite Forall_forall in Hx |- *.
  intros y [_ Hy]%list_elem_of_filter. by apply Hx.
Qed.

Lemma StronglySorted_seq_lt a n : StronglySorted lt (seq a n).
Proof.
  revert a. induction n as [|n IH]; intros a; simpl; constructor; [apply IH|].
  apply Forall_forall. intros x Hx%elem_of_seq. lia.
Qed.

Lemma others_sorted points i :
  no_nan_distance points → (i < length points)%nat →
  StronglySorted nearer (others_by_distance points i).
Proof.
  intros Hnan Hi. unfold others_by_distance. rewrite knn_dlist_eq.
  apply sort_by_key_sorted.
  - apply Forall_fmap, Forall_forall. intros j [_ Hj%elem_of_seq]%list_elem_of_filter.
    simpl. apply Hnan; lia.
  - rewrite <- list_fmap_compose, list_fmap_id.
    apply StronglySorted_filter, StronglySorted_seq_lt.
Qed.

(** C5, as the code has it.  When no squared distance is a NaN, the
    candidates of every point are sorted nearest first (squared distance
    ascending, equal distances by ascending index).  The points are visited by
    ascending index; point [i] adds the canonical pairs with its first [k]
    candidates in that order among the other points within range whose pair
    is not in the set yet.  Hence every returned edge joins two points whose
    squared distance is at most [max_m * max_m], and the set holds the pair of
    every point with each of its [k] nearest points within range; it may
    hold more. *)
Theorem knn_characterization (points : list point) (k : Z) (max_m : float) :
  no_nan_distance points → 1 ≤ k →
  (∀ i, (i < length points)%nat → StronglySorted nearer (others_by_distance points i)) ∧
  build_knn_edges points k max_m = knn_rounds points k max_m ∧
  (∀ e, e ∈ build_knn_edges points k max_m →
        knn_edge_ok points (max_m * max_m)%float e) ∧
  claimed_knn points k max_m ⊆ build_knn_edges points k max_m.
Proof.
  intros Hnan Hk. rewrite build_knn_rounds. split_and!; [|done| |].
  - intros i Hi. by apply others_sorted.
  - intros e He.
    apply (knn_rounds_ok points k _ (seq 0 (length points)) ∅ e); [| |exact He].
    + intros e' He'. by apply elem_of_empty in He'.
    + intros i Hi. apply elem_of_seq in Hi. lia.
  - intros e He. unfold claimed_knn in He.
    apply elem_of_union_list in He as (X & HX & He).
    apply list_elem_of_fmap in HX as (i & -> & Hi).
    apply elem_of_list_to_set, list_elem_of_fmap in He as (j & -> & Hj).
    by apply knn_rounds_nearest.
Qed.

Lemma knn_characterization_witness :
  no_nan_distance sample_points ∧ 1 ≤ 2 ∧
  (∀ i, (i < length sample_points)%nat →
        StronglySorted nearer (others_by_distance sample_points i)) ∧
  build_knn_edges sample_points 2 60000 = knn_rounds sample_points 2 60000 ∧
  (∀ e, e ∈ build_knn_edges sample_points 2 60000 →
        knn_edge_ok sample_points (60000 * 60000)%float e) ∧
  claimed_knn sample_points 2 60000 ⊆ build_knn_edges sample_points 2 60000.
Proof.
  assert (H : no_nan_distance sample_points)
    by (apply no_nan_distance_check; vm_compute; reflexivity).
  split; [exact H|]. split; [lia|].
  apply (knn_characterization sample_points 2 60000 H). lia.
Defined.

(** C5 as stated fails.  Four points on a line at x = 0, 2, 6, 7 and k = 1:
    point 1 finds its nearest point 0 already linked (by point 0), the pair
    does not count, and it goes on to link point 2; yet 2 is not the nearest
    point of 1, nor 1 the nearest point of 2. *)
Lemma knn_beyond_nearest_counterexample :
  (1, 2) ∈ build_knn_edges line_points 1 60000 ∧
  nearest line_points 1 1 (60000 * 60000)%float = [0%nat] ∧
  nearest line_points 2 1 (60000 * 60000)%float = [3%nat] ∧
  ((1, 2) ∉ claimed_knn line_points 1 60000) ∧
  build_knn_edges line_points 1 60000 ≠ claimed_knn line_points 1 60000.
Proof.
  assert (H1 : (1, 2) ∈ build_knn_edges line_points 1 60000)
    by (apply (bool_decide_unpack _); vm_compute; exact I).
  assert (H2 : (1, 2) ∉ claimed_knn line_points 1 60000)
    by (apply (bool_decide_unpack _); vm_compute; exact I).
  split_and!; [done|by vm_compute|by vm_compute|done|].
  intros E. rewrite E in H1. done.
Qed.

Lemma float_square_opp (m : float) : (- m * - m)%float = (m * m)%float.
Proof.
  apply Prim2SF_inj. rewrite !mul_spec, !opp_spec.
  destruct (Prim2SF m) as [s|s| |s mm e]; simpl; try done;
    by destruct s.
Qed.

Lemma knn_rounds_quota points k k' max_m :
  quota k 0 = quota k' 0 → knn_rounds points k max_m = knn_rounds points k' max_m.
Proof.
  intros Hq. unfold knn_rounds.
  generalize (seq 0 (length points)) as l. generalize (∅ : gset edge) as out.
  intros out l. revert out. induction l as [|i l IH]; intros out; [done|].
  simpl. unfold knn_round at 2 4. by rewrite Hq, IH.
Qed.

(** C6, as the code has it.  [k = 0] (or any [k] below 1) acts as [k = 1]: the
    count is compared with [k] after an addition only.  A negative
    [maxDistance] acts as its absolute value: only its square is used.  With
    [maxDistance = 0] every returned pair has a squared distance that
    computes to at most zero.  No validation refuses either value, and none
    of the three facts depends on the order of the candidates. *)
Theorem knn_degenerate_configuration (points : list point) (k : Z) (max_m : float) :
  build_knn_edges points (Z.min k 1) max_m = build_knn_edges points 1 max_m ∧
  build_knn_edges points k (- max_m)%float = build_knn_edges points k max_m ∧
  (∀ e, e ∈ build_knn_edges points k 0 → knn_edge_ok points 0 e).
Proof.
  split_and!.
  - rewrite !build_knn_rounds. apply knn_rounds_quota. unfold quota. lia.
  - unfold build_knn_edges. by rewrite float_square_opp.
  - intros e He. rewrite build_knn_rounds in He.
    apply (knn_rounds_ok points k _ (seq 0 (length points)) ∅ e); [| |exact He].
    + intros e' He'. by apply elem_of_empty in He'.
    + intros i Hi. apply elem_of_seq in Hi. lia.
Qed.

(** C6 as stated fails: none of the three configurations returns the empty
    set. *)
Lemma knn_invalid_configuration_counterexample :
  (0, 3) ∈ build_knn_edges sample_points 0 60000 ∧
  (0, 3) ∈ build_knn_edges sample_points 2 (-60000) ∧
  (0, 1) ∈ build_knn_edges twin_points 2 0.
Proof.
  split_and!; apply (bool_decide_unpack _); vm_compute; exact I.
Qed.

End TopologyFacts.

Module ViewportFacts.
Import Py Viewport.

(** The pixel at which the world point that was under [(mx, my)] before the
    zoom step is drawn after it. *)
Definition anchor_after {T : Type} `{Number T} (cx cy mx my dirn : Z) (fit_scale : T)
    (v : view) : exn + (Z * Z) :=
  '(wx, wy, v', scale') ← wheel_zoom cx cy mx my dirn fit_scale (current_scale v fit_scale) v;
  to_screen cx cy scale' v' wx wy.


(** A view panned one kilometre east and north of the origin, at the zoom
    factors 1 and 10^14; the wheel reaches the second after some 230 notches
    of zooming in. *)
Definition near_view : view (T:=float) :=
  View Manual 1%float 1000%float 1000%float 0%float 0%float.


Open Scope Q_scope.









(** In binary64 the anchor is kept up to rounding only.  Near the start the
    world point under the pixel [(700, 300)] comes back one pixel off. *)
Example zoom_anchor_rounded :
  anchor_after 500 400 700 300 1 2%float near_view = inr (700, 299)%Z.
Proof. vm_compute. reflexivity. Qed.


End ViewportFacts.

(** *** Prim's loop on every input *)

Module MstFacts.
Import Topology TopologyFacts.
Open Scope Z_scope.

(** Every point but the first has a parent, and the parent is in the tree. *)
Definition rooted (s : prim) : Prop :=
  ∀ j, (0 < j < length (parent s))%nat →
    ∃ p, parent s !! j = Some (Z.of_nat p) ∧ in_tree s !! p = Some true.

(** What Prim's loop keeps on every input, finite or not. *)
Record prim_safe (n : nat) (s : prim) : Prop := {
  safe_len_tree : length (in_tree s) = n;
  safe_len_dist : length (dist2 s) = n;
  safe_len_parent : length (parent s) = n;
  safe_root : in_tree s !! 0%nat = Some true;
  safe_rooted : rooted s;
  safe_edges : ∀ a b, (a, b) ∈ edges s →
     ∃ i j, a = Z.of_nat i ∧ b = Z.of_nat j ∧
            in_tree s !! i = Some true ∧ in_tree s !! j = Some true;
  safe_conn : ∀ j, in_tree s !! j = Some true → connected (edges s) (Z.of_nat j) 0;
  safe_acyclic : acyclic (edges s);
  safe_count : S (length (edges s)) = count_true (in_tree s) }.

(** The scan has picked nothing, or a point outside the tree. *)
Definition picked (s : prim) (acc : Z * float) : Prop :=
  acc.1 = -1 ∨ ∃ k, acc.1 = Z.of_nat k ∧ in_tree s !! k = Some false.

Section prim_safety.
Variable points : list point.
Let n := length points.

Lemma relax_step_rooted k s j :
  in_tree s !! k = Some true → rooted s →
  same_tree s (relax_step points k s j) ∧ rooted (relax_step points k s j).
Proof.
  intros Hkt Hr. unfold relax_step.
  destruct (negb (in_tree s !!! j)); [|split; [apply same_tree_refl|done]].
  destruct (d2_between points k j <? dist2 s !!! j)%float;
    [|split; [apply same_tree_refl|done]].
  split; [repeat split; simpl; by rewrite ?length_insert|].
  intros i Hi. simpl in *. rewrite length_insert in Hi.
  destruct (decide (j = i)) as [->|Hne].
  - exists k. by rewrite list_lookup_insert_eq by lia.
  - rewrite list_lookup_insert_ne by done. by apply Hr.
Qed.

Lemma relax_rooted k s :
  in_tree s !! k = Some true → rooted s →
  same_tree s (mst_relax points k s) ∧ rooted (mst_relax points k s).
Proof.
  intros Hkt Hr. unfold mst_relax.
  generalize (seq 0 (length points)) as js. intros js.
  induction js as [|j js IH] using rev_ind; [split; [apply same_tree_refl|done]|].
  rewrite foldl_snoc. destruct IH as [(E1 & E2 & E3 & E4) IHr].
  destruct (relax_step_rooted k (foldl (relax_step points k) s js) j)
    as [(F1 & F2 & F3 & F4) Fr]; [congruence|done|].
  split; [|done]. repeat split; congruence.
Qed.

Lemma select_step_picked s acc j :
  (j < length (in_tree s))%nat → picked s acc → picked s (select_step s acc j).
Proof.
  intros Hj H. destruct acc as [k best]. unfold select_step.
  destruct (negb (in_tree s !!! j)) eqn:Hn; simpl; [|done].
  destruct (dist2 s !!! j <? best)%float; [|done].
  right. exists j. split; [done|]. apply negb_true_iff in Hn.
  rewrite <- Hn. by apply list_lookup_lookup_total_lt.
Qed.

Lemma select_picked s :
  length (in_tree s) = n → picked s (mst_select n s).
Proof.
  intros Hlen. unfold mst_select.
  assert (Hjs : ∀ j, j ∈ seq 0 n → (j < length (in_tree s))%nat)
    by (intros j Hj%elem_of_seq; lia).
  revert Hjs. generalize (seq 0 n) as js.
  assert (H0 : picked s (-1, infinity)) by by left.
  revert H0. generalize (-1, infinity) as acc.
  intros acc H0 js. revert acc H0.
  induction js as [|j js IH]; intros acc H0 Hjs; [done|].
  simpl. apply IH; [|intros; apply Hjs; by right].
  apply select_step_picked; [apply Hjs; by left|done].
Qed.

Lemma grow_safe s k :
  prim_safe n s → in_tree s !! k = Some false →
  prim_safe n (mst_relax points k (grow k s)) ∧
  in_tree (mst_relax points k (grow k s)) = <[k := true]> (in_tree s).
Proof.
  intros Hinv Hk.
  pose proof (lookup_lt_Some _ _ _ Hk) as Hkn. rewrite (safe_len_tree n s Hinv) in Hkn.
  assert (Hk0 : k ≠ 0%nat) by (intros ->; rewrite (safe_root n s Hinv) in Hk; done).
  destruct (safe_rooted n s Hinv k) as (p & Hp & Hpt);
    [rewrite (safe_len_parent n s Hinv); lia|].
  assert (Hpk : p ≠ k) by (intros ->; congruence).
  assert (Hpar : parent s !!! k = Z.of_nat p) by by apply list_lookup_total_correct.
  assert (Hkeep : ∀ i, in_tree s !! i = Some true →
                       <[k := true]> (in_tree s) !! i = Some true).
  { intros i Hi. rewrite list_lookup_insert_ne; [done|]. intros ->. congruence. }
  assert (Hnew : <[k := true]> (in_tree s) !! k = Some true).
  { apply list_lookup_insert_eq. by rewrite (safe_len_tree n s Hinv). }
  assert (Hunt : untouched (edges s) (Z.of_nat k)).
  { intros a b Hab. destruct (safe_edges n s Hinv a b Hab) as (i & j & -> & -> & Hi & Hj).
    split; intros E; apply Nat2Z.inj in E; subst; congruence. }
  destruct (relax_rooted k (grow k s)) as [(E1 & E2 & E3 & E4) Hr]; simpl; try done.
  - intros j Hj. simpl in Hj.
    destruct (safe_rooted n s Hinv j Hj) as (q & Hq & Hqt).
    exists q. split; [done|]. by apply Hkeep.
  - simpl in *. split; [|done]. constructor; rewrite ?E1, ?E2; simpl.
    + by rewrite length_insert, (safe_len_tree n s Hinv).
    + rewrite E3. apply (safe_len_dist n s Hinv).
    + rewrite E4. apply (safe_len_parent n s Hinv).
    + apply Hkeep, (safe_root n s Hinv).
    + done.
    + intros a b Hab. apply elem_of_app in Hab as [Hab|Hab].
      * destruct (safe_edges n s Hinv a b Hab) as (i & j & -> & -> & Hi & Hj).
        exists i, j. repeat split; by try apply Hkeep.
      * apply list_elem_of_singleton in Hab. injection Hab as -> ->.
        exists k, p. rewrite Hpar. repeat split; [done|by apply Hkeep].
    + intros j Hj. destruct (decide (j = k)) as [->|Hjk].
      * eapply rtc_l; [left; apply elem_of_app; right; by left|].
        rewrite Hpar. eapply connected_mono; [|apply (safe_conn n s Hinv p Hpt)].
        intros e He. apply elem_of_app. by left.
      * rewrite list_lookup_insert_ne in Hj by done.
        eapply connected_mono; [|apply (safe_conn n s Hinv j Hj)].
        intros e He. apply elem_of_app. by left.
    + rewrite Hpar. apply acyclic_pendant; [apply (safe_acyclic n s Hinv)|done|].
      intros E. apply Nat2Z.inj in E. done.
    + rewrite length_app. simpl. rewrite count_true_insert by done.
      rewrite <- (safe_count n s Hinv). lia.
Qed.

Lemma mst_loop_safe rounds s :
  prim_safe n s → prim_safe n (mst_loop points rounds s).
Proof.
  revert s. induction rounds as [|r IH]; intros s Hinv; simpl; [done|].
  pose proof (select_picked s (safe_len_tree n s Hinv)) as Hsel. fold n.
  destruct (mst_select n s) as [kz best]. unfold picked in Hsel. simpl in Hsel.
  destruct (Z.eqb_spec kz (-1)) as [E|E]; [done|].
  destruct Hsel as [?|(k & -> & Hk)]; [done|].
  rewrite Nat2Z.id. apply IH. by apply grow_safe.
Qed.

Lemma init_fold_rooted js s :
  (∀ j, j ∈ js → (0 < j < n)%nat) → length (dist2 s) = n → length (parent s) = n →
  in_tree (foldl (init_step points) s js) = in_tree s ∧
  edges (foldl (init_step points) s js) = edges s ∧
  length (dist2 (foldl (init_step points) s js)) = n ∧
  length (parent (foldl (init_step points) s js)) = n ∧
  ∀ j, j ∈ js → parent (foldl (init_step points) s js) !! j = Some 0.
Proof.
  induction js as [|x js IH] using rev_ind; intros Hjs L2 L3.
  - split_and!; try done. intros j Hj. by apply elem_of_nil in Hj.
  - rewrite foldl_snoc.
    destruct IH as (E1 & E2 & E3 & E4 & IH);
      [intros; apply Hjs, elem_of_app; by left|done..|].
    assert (Hx : (0 < x < n)%nat) by (apply Hjs, elem_of_app; right; by left).
    set (s1 := foldl (init_step points) s js) in *.
    unfold init_step. simpl.
    rewrite !length_insert. split_and!; try done.
    intros j Hj. destruct (decide (x = j)) as [->|Hne].
    + by rewrite list_lookup_insert_eq by lia.
    + rewrite list_lookup_insert_ne by done.
      apply IH. apply elem_of_app in Hj as [Hj|Hj]; [done|].
      apply list_elem_of_singleton in Hj. congruence.
Qed.

Lemma mst_init_safe : (1 ≤ n)%nat → prim_safe n (mst_init points).
Proof.
  intros Hn. unfold mst_init. fold n.
  set (s0 := Prim _ _ _ _).
  destruct (init_fold_rooted (seq 1 (n - 1)) s0) as (E1 & E2 & E3 & E4 & Hp).
  { intros j Hj. apply elem_of_seq in Hj. lia. }
  { apply length_replicate. }
  { apply length_replicate. }
  assert (Hroot : <[0%nat := true]> (replicate n false) !! 0%nat = Some true).
  { apply list_lookup_insert_eq. rewrite length_replicate. lia. }
  constructor; rewrite ?E1, ?E2; simpl; try done.
  - by rewrite length_insert, length_replicate.
  - intros j Hj. rewrite E4 in Hj. exists 0%nat. rewrite E1. simpl.
    split; [|done]. apply Hp, elem_of_seq. lia.
  - intros a b Hab. by apply elem_of_nil in Hab.
  - intros j Hj. destruct (decide (j = 0%nat)) as [->|Hj0]; [apply rtc_refl|].
    rewrite list_lookup_insert_ne in Hj by done.
    apply lookup_replicate_1 in Hj as [? _]. done.
  - apply acyclic_nil.
  - rewrite count_true_insert, count_true_replicate; [done|].
    apply lookup_replicate_2. lia.
Qed.

End prim_safety.

Lemma acyclic_no_loop E a b : acyclic E → (a, b) ∈ E → a ≠ b.
Proof.
  intros Hac Hin ->. apply list_elem_of_split in Hin as (E1 & E2 & ->).
  apply (Hac E1 b b E2 eq_refl). apply rtc_refl.
Qed.

Lemma mst_edges_safe (points : list point) :
  let E := build_mst_edges points in
  (length E ≤ length points - 1)%nat ∧
  edges_within (length points) E ∧
  acyclic E ∧
  (∀ a b, (a, b) ∈ E → a ≠ b ∧ connected E a 0 ∧ connected E b 0).
Proof.
  simpl. unfold build_mst_edges.
  destruct (Nat.leb_spec (length points) 1) as [H1|H1].
  - split_and!; [simpl; lia| |apply acyclic_nil|];
      intros a b Hab; by apply elem_of_nil in Hab.
  - pose proof (mst_loop_safe points (length points - 1) (mst_init points)
                  (mst_init_safe points ltac:(lia))) as Hs.
    set (s := mst_loop points (length points - 1) (mst_init points)) in *.
    assert (Hw : edges_within (length points) (edges s)).
    { intros a b Hab.
      destruct (safe_edges _ s Hs a b Hab) as (i & j & -> & -> & Hi & Hj).
      apply lookup_lt_Some in Hi, Hj. rewrite (safe_len_tree _ s Hs) in Hi, Hj. lia. }
    split_and!; [|done|apply (safe_acyclic _ s Hs)|].
    + pose proof (safe_count _ s Hs). pose proof (count_true_le (in_tree s)).
      rewrite (safe_len_tree _ s Hs) in *. lia.
    + intros a b Hab. split; [by eapply acyclic_no_loop, Hab; apply (safe_acyclic _ s Hs)|].
      destruct (safe_edges _ s Hs a b Hab) as (i & j & -> & -> & Hi & Hj).
      split; by apply (safe_conn _ s Hs).
Qed.

(** For every list of points, whatever their coordinates, the edges of
    [build_mst_edges] are fewer than the points, join indices of the list,
    hold no cycle (so no edge twice and no edge from a point to itself), and
    every point they touch is connected to point 0. *)
Theorem mst_partial_tree (points : list point) :
  let E := build_mst_edges points in
  (length E ≤ length points - 1)%nat ∧
  edges_within (length points) E ∧
  acyclic E ∧
  (∀ a b, (a, b) ∈ E → a ≠ b ∧ connected E a 0 ∧ connected E b 0).
Proof. apply mst_edges_safe. Qed.

End MstFacts.

(** *** Nearest neighbours: how many links, and when none *)

Module KnnFacts.
Import Topology TopologyFacts.
Open Scope Z_scope.

#[local] Set Warnings "-clear-no-such-hyp".

Lemma size_list_to_set_le (l : list edge) :
  (size (list_to_set (C := gset edge) l) ≤ length l)%nat.
Proof.
  induction l as [|e l IH]; [by rewrite list_to_set_nil, size_empty|].
  rewrite list_to_set_cons, size_union_alt, size_singleton. simpl.
  pose proof (subseteq_size (list_to_set (C := gset edge) l ∖ {[e]}) (list_to_set l)
                ltac:(set_solver)).
  lia.
Qed.

Lemma knn_round_size points k max_m2 out i :
  (size (knn_round points k max_m2 out i) ≤ size out + quota k 0)%nat.
Proof.
  unfold knn_round. rewrite size_union_alt.
  set (new := list_to_set _).
  pose proof (subseteq_size (new ∖ out) new ltac:(set_solver)) as H1.
  pose proof (size_list_to_set_le
    (canon i <$> (take (quota k 0)
       (filter (fresh_in_range i max_m2 out) (others_by_distance points i))).*2)) as H2.
  rewrite !length_fmap, length_take in H2. fold new in H2. lia.
Qed.

Lemma knn_rounds_size points k max_m2 l out :
  (size (foldl (knn_round points k max_m2) out l) ≤ size out + length l * quota k 0)%nat.
Proof.
  revert out. induction l as [|i l IH]; intros out; simpl; [lia|].
  specialize (IH (knn_round points k max_m2 out i)).
  pose proof (knn_round_size points k max_m2 out i). lia.
Qed.

(** Every point adds at most [k] links, and one when [k] is below 1: the
    result holds at most [n * max(k, 1)] links, whatever the points and the
    range. *)
Theorem knn_link_count (points : list point) (k : Z) (max_m : float) :
  (size (build_knn_edges points k max_m) ≤ length points * Z.to_nat (Z.max 1 k))%nat.
Proof.
  rewrite build_knn_rounds. unfold knn_rounds.
  pose proof (knn_rounds_size points k (max_m * max_m)%float
                (seq 0 (length points)) ∅) as H.
  rewrite size_empty, length_seq in H. unfold quota in H.
  by rewrite Z.sub_0_r in H.
Qed.

Lemma leb_nan (d : float) : (d <=? nan)%float = false.
Proof.
  rewrite FloatAxioms.leb_spec. unfold SFleb, SFcompare.
  change (Prim2SF nan) with S754_nan. by destruct (Prim2SF d) as [| | |[]].
Qed.

Lemma knn_round_out_of_range points k max_m2 out i :
  (∀ d, (d <=? max_m2)%float = false) → knn_round points k max_m2 out i = out.
Proof.
  intros Hr. unfold knn_round.
  assert (filter (fresh_in_range i max_m2 out) (others_by_distance points i) = []) as ->.
  { generalize (others_by_distance points i) as l.
    induction l as [|c l IH]; [done|].
    rewrite filter_cons_False; [done|].
    intros [Hc _]. unfold in_range in Hc. by rewrite Hr in Hc. }
  rewrite take_nil. simpl. set_solver.
Qed.

(** A range that is a NaN links nothing, and neither does a list of fewer
    than two points: no comparison with a NaN holds, and a single point has
    no candidate. *)
Theorem knn_nothing_in_range (points : list point) (k : Z) (max_m : float) :
  build_knn_edges points k nan = ∅ ∧
  ((length points ≤ 1)%nat → build_knn_edges points k max_m = ∅).
Proof.
  split.
  - rewrite build_knn_rounds. unfold knn_rounds.
    generalize (seq 0 (length points)) as l.
    induction l as [|i l IH]; [done|]. simpl.
    rewrite knn_round_out_of_range; [done|].
    change (nan * nan)%float with nan. apply leb_nan.
  - intros Hn. unfold build_knn_edges.
    destruct points as [|p [|q points]]; simpl in *; [done| |lia].
    reflexivity.
Qed.

End KnnFacts.

(** *** The links of a frame *)

Module LinksFacts.
Import Topology TopologyFacts MstFacts Links.
Open Scope Z_scope.

(** The edges of a result, in some order. *)
Definition links_list (l : links) : list edge :=
  match l with InOrder es => es | AnyOrder s => elements s end.

Lemma connected_through E E' u v :
  (∀ a b, (a, b) ∈ E → adjacent E' a b) → connected E u v → connected E' u v.
Proof.
  intros Hsub. induction 1 as [|x y z Hxy _ IH]; [apply rtc_refl|].
  eapply rtc_l; [|exact IH].
  destruct Hxy as [H|H]; [by apply Hsub|by apply adjacent_sym, Hsub].
Qed.

Lemma sorted_pair_adjacent (E : list edge) a b :
  sorted_pair (a, b) ∈ E → adjacent E a b.
Proof.
  unfold sorted_pair, adjacent. simpl. intros H.
  destruct (Z.le_ge_cases a b).
  - left. by rewrite Z.min_l, Z.max_r in H.
  - right. by rewrite Z.min_r, Z.max_l in H by lia.
Qed.

Lemma knn_edge_canonical points max_m2 e :
  knn_edge_ok points max_m2 e → 0 ≤ e.1 < e.2 ∧ e.2 < Z.of_nat (length points).
Proof.
  intros (i & j & -> & Hij & Hi & Hj & _). unfold canon.
  destruct (Nat.ltb_spec i j); simpl; lia.
Qed.

Lemma knn_edges_canonical points k max_m e :
  e ∈ build_knn_edges points k max_m → 0 ≤ e.1 < e.2 ∧ e.2 < Z.of_nat (length points).
Proof.
  intros He. rewrite build_knn_rounds in He.
  apply (knn_edge_canonical points (max_m * max_m)%float).
  apply (knn_rounds_ok points k _ (seq 0 (length points)) ∅ e); [| |exact He].
  - intros e' He'. by apply elem_of_empty in He'.
  - intros i Hi. apply elem_of_seq in Hi. lia.
Qed.

(** Whatever the points and the mode, every link joins two different indices
    of the point list, so that the drawing loop can subscript with both; in
    every mode but ["mst"] the smaller index comes first; and fewer than two
    points give no link. *)
Theorem links_within (points : list point) (mode : string) :
  (∀ a b, (a, b) ∈ links_list (build_links points mode) →
     0 ≤ a < Z.of_nat (length points) ∧ 0 ≤ b < Z.of_nat (length points) ∧ a ≠ b ∧
     (mode ≠ "mst" → a < b)) ∧
  ((length points ≤ 1)%nat → build_links points mode = InOrder []).
Proof.
  destruct (mst_edges_safe points) as (_ & Hw & _ & Hne). simpl in Hne.
  unfold build_links. split; [|by destruct (Nat.leb_spec (length points) 1); [|lia]].
  intros a b. destruct (length points <=? 1)%nat; simpl;
    [intros H; by apply elem_of_nil in H|].
  destruct (String.eqb_spec mode "mst") as [->|Hm]; simpl.
  - intros Hab. destruct (Hw a b Hab), (Hne a b Hab) as (? & _).
    split_and!; [lia..|done|by intros []].
  - destruct (String.eqb mode "knn"); simpl.
    + intros Hab%elem_of_elements%knn_edges_canonical. simpl in Hab. lia.
    + intros Hab%elem_of_elements. apply elem_of_union in Hab as [Hab|Hab].
      * apply elem_of_list_to_set, list_elem_of_fmap in Hab as ([c d] & [= -> ->] & Hcd).
        destruct (Hw c d Hcd), (Hne c d Hcd) as (? & _). simpl. lia.
      * apply knn_edges_canonical in Hab. simpl in Hab. lia.
Qed.

(** When every squared distance is finite, the links of every mode but
    ["knn"] connect all the points: they hold the spanning tree.  The default
    mode holds the nearest-neighbour links as well. *)
Theorem links_connect (points : list point) (mode : string) :
  finite_distances points → mode ≠ "knn" →
  spans (length points) (links_list (build_links points mode)) ∧
  (mode ≠ "mst" → (2 ≤ length points)%nat →
     ∀ e, e ∈ build_knn_edges points 2 LINK_MAX_METERS →
          e ∈ links_list (build_links points mode)).
Proof.
  intros Hfin Hk.
  destruct (Nat.le_gt_cases (length points) 1) as [Hn|Hn].
  - split; [|lia]. intros u v Hu Hv. assert (u = v) as -> by lia. apply rtc_refl.
  - destruct (mst_tree points Hfin) as (_ & _ & Hspan & _); [lia|].
    unfold build_links. destruct (Nat.leb_spec (length points) 1) as [?|_]; [lia|].
    destruct (String.eqb_spec mode "mst") as [->|Hm]; simpl; [by split|].
    destruct (String.eqb_spec mode "knn") as [->|_]; [done|]. simpl. split.
    + intros u v Hu Hv. eapply connected_through; [|by apply Hspan].
      intros a b Hab. apply sorted_pair_adjacent, elem_of_elements, elem_of_union.
      left. apply elem_of_list_to_set, list_elem_of_fmap. by exists (a, b).
    + intros _ _ e He. apply elem_of_elements, elem_of_union. by right.
Qed.

Lemma links_connect_witness :
  finite_distances sample_points ∧ "mst_knn" ≠ "knn" ∧
  spans (length sample_points) (links_list (build_links sample_points "mst_knn")) ∧
  ("mst_knn" ≠ "mst" → (2 ≤ length sample_points)%nat →
     ∀ e, e ∈ build_knn_edges sample_points 2 LINK_MAX_METERS →
          e ∈ links_list (build_links sample_points "mst_knn")).
Proof.
  assert (H : finite_distances sample_points)
    by (apply finite_distances_check; vm_compute; reflexivity).
  assert (Hm : "mst_knn" ≠ "knn") by discriminate.
  split; [exact H|]. split; [exact Hm|].
  exact (links_connect sample_points "mst_knn" H Hm).
Defined.

End LinksFacts.

(** *** The effect of an update *)

Module UpsertFacts.
Import Py Store StoreFacts.

(** The node map after an update for [nid]: the record found under [nid] is
    merged in place, and a new record goes in as the last one. *)
Definition updated `{Builtins} (nid : string) (nm : option string) (la lo ts : option float)
    (st : state) : list (value * node) :=
  match nodes_lookup (VStr nid) (nodes st) with
  | Some _ =>
      nodes_alter (λ r, merged r nm la lo (stamp ts (clock (ticks st))))
                  (VStr nid) (nodes st)
  | None =>
      nodes st ++ [(VStr nid,
                    merged (Node (VStr nid) None None (clock (ticks st))) nm la lo
                           (stamp ts (clock (S (ticks st)))))]
  end.

(** The origin after an update: the first position given in full sets it. *)
Definition origin_after (la lo : option float) (o : origin_t) : origin_t :=
  match la, lo with
  | Some x, Some y => if o_set o then o else Origin (Some x) (Some y) true
  | _, _ => o
  end.

(** A latitude and a longitude of which one cannot be read as a float:
    [float(lat)] raises, or it returns and [float(lon)] raises. *)
Definition position_raises `{Builtins} (la lo : value) (e : exn) : Prop :=
  is_none la = false ∧ is_none lo = false ∧
  (py_float la = inl e ∨ (∃ x, py_float la = inr x) ∧ py_float lo = inl e).

Section upsert.
Context `{Builtins}.

Lemma nodes_alter_alter f g k l :
  nodes_alter f k (nodes_alter g k l) = nodes_alter (f ∘ g) k l.
Proof.
  induction l as [|[k' r] l IH]; simpl; [done|].
  destruct (key_eqb k' k) eqn:E; simpl; rewrite E; [done|]. by rewrite IH.
Qed.

Lemma nodes_alter_ext f g k l :
  (∀ r, f r = g r) → nodes_alter f k l = nodes_alter g k l.
Proof.
  intros Hfg. induction l as [|[k' r] l IH]; simpl; [done|].
  destruct (key_eqb k' k); [by rewrite Hfg|by rewrite IH].
Qed.

Lemma nodes_alter_snoc f k r l :
  key_eqb k k = true → nodes_lookup k l = None →
  nodes_alter f k (l ++ [(k, r)]) = l ++ [(k, f r)].
Proof.
  intros Hk. induction l as [|[k' r'] l IH]; simpl; [by rewrite Hk|].
  destruct (key_eqb k' k); [done|]. intros Hl. by rewrite IH.
Qed.

Lemma upsert_node_closed nid nm la lo ts st :
  let out := upsert_node (VStr nid) (opt_str nm) (opt_float la) (opt_float lo)
                         (opt_float ts) st in
  out.2 = inr tt ∧
  nodes out.1 = updated nid nm la lo ts st ∧
  origin out.1 = origin_after la lo (origin st) ∧
  last_packet out.1 = last_packet st ∧ q out.1 = q st.
Proof.
  simpl. unfold updated, origin_after. run_m.
  destruct (nodes_lookup (VStr nid) (nodes st)) as [r|] eqn:Hr;
  (destruct nm as [s|]; [destruct (String.eqb s "") eqn:Es|]);
  (destruct ts as [t|]; [destruct (t =? 0)%float eqn:Et|]);
  destruct la as [x|], lo as [y|]; run_m; rewrite ?Es, ?Et; run_m;
  try destruct (o_set (origin st)) eqn:Eo; run_m;
  (split; [reflexivity|]); (split; [|by destruct (origin st)]);
  rewrite ?nodes_alter_alter; try (apply nodes_alter_ext; intros [? ? ? ?]);
  unfold merged, stamp; simpl; rewrite ?Es, ?Et; try reflexivity.
Qed.

(** An update changes the record under its id and nothing else.  Whatever
    the store, [upsert_node] with an id, an optional name, latitude,
    longitude and timestamp returns; it merges the record stored under the
    id where it stands, or appends the new record after all the others; it
    sets the origin to the position when that is complete and no origin is
    set; and it leaves [status] and the queue alone. *)
Theorem upsert_node_effect (nid : string) (nm : option string) (la lo ts : option float)
    (st : state) :
  let out := upsert_node (VStr nid) (opt_str nm) (opt_float la) (opt_float lo)
                         (opt_float ts) st in
  out.2 = inr tt ∧
  nodes out.1 = updated nid nm la lo ts st ∧
  origin out.1 = origin_after la lo (origin st) ∧
  last_packet out.1 = last_packet st ∧ q out.1 = q st.
Proof. apply upsert_node_closed. Qed.

Lemma merged_merged r nm la lo t t' :
  merged (merged r nm la lo t') nm la lo t = merged r nm la lo t.
Proof.
  destruct r. unfold merged. simpl.
  destruct nm as [s|]; [destruct (String.eqb s "")|]; destruct la, lo; reflexivity.
Qed.

Lemma origin_after_twice la lo o : origin_after la lo (origin_after la lo o) = origin_after la lo o.
Proof.
  unfold origin_after. destruct la, lo; try done.
  by destruct (o_set o) eqn:E; simpl; rewrite ?E.
Qed.

(** Applying the same update twice is applying it once, when it carries a
    timestamp that is not zero: the second application changes neither the
    node map nor the origin. *)
Theorem upsert_idempotent (nid : string) (nm : option string) (la lo : option float)
    (t : float) (st : state) :
  (t =? 0)%float = false →
  let once := (upsert_node (VStr nid) (opt_str nm) (opt_float la) (opt_float lo)
                           (VFloat t) st).1 in
  let twice := (upsert_node (VStr nid) (opt_str nm) (opt_float la) (opt_float lo)
                            (VFloat t) once).1 in
  nodes twice = nodes once ∧ origin twice = origin once.
Proof.
  intros Ht. simpl.
  destruct (upsert_node_closed nid nm la lo (Some t) st) as (_ & Hn & Ho & _).
  simpl in Hn, Ho.
  set (once := (upsert_node _ _ _ _ _ st).1) in *.
  destruct (upsert_node_closed nid nm la lo (Some t) once) as (_ & Hn' & Ho' & _).
  simpl in Hn', Ho'. rewrite Hn', Ho', Ho. split; [|apply origin_after_twice].
  unfold updated. rewrite Hn. unfold updated, stamp. rewrite Ht.
  destruct (nodes_lookup (VStr nid) (nodes st)) as [r|] eqn:Hr.
  - rewrite nodes_lookup_alter, Hr. simpl. rewrite nodes_alter_alter.
    apply nodes_alter_ext. intros r'. apply merged_merged.
  - rewrite nodes_lookup_snoc; [|apply key_eqb_str|done].
    rewrite nodes_alter_snoc; [|apply key_eqb_str|done].
    by rewrite merged_merged.
Qed.

(** An update whose position cannot be read is not applied whole and not
    dropped whole.  The call raises; for an id the store holds, the name and
    the last-seen time of the record were already overwritten and stay so,
    while its position is kept; for a new id nothing is stored.  The origin
    is not touched. *)
Theorem upsert_failing_position (nid : string) (nm : option string) (la lo : value)
    (ts : option float) (e : exn) (st : state) :
  position_raises la lo e →
  let out := upsert_node (VStr nid) (opt_str nm) la lo (opt_float ts) st in
  out.2 = inl e ∧
  origin out.1 = origin st ∧
  nodes out.1 = match nodes_lookup (VStr nid) (nodes st) with
                | Some _ => updated nid nm None None ts st
                | None => nodes st
                end.
Proof.
  intros (Hla & Hlo & Hraise). simpl. unfold updated. run_m.
  rewrite Hla, Hlo.
  destruct (nodes_lookup (VStr nid) (nodes st)) as [r|] eqn:Hr;
  (destruct nm as [s|]; [destruct (String.eqb s "") eqn:Es|]);
  (destruct ts as [t|]; [destruct (t =? 0)%float eqn:Et|]);
  run_m; rewrite ?Es, ?Et; run_m;
  (destruct Hraise as [->|[[x ->] ->]]); run_m;
  (split; [reflexivity|]); (split; [reflexivity|]);
  rewrite ?nodes_alter_alter; try (apply nodes_alter_ext; intros [? ? ? ?]);
  unfold merged, stamp; simpl; rewrite ?Es, ?Et; try reflexivity.
Qed.

End upsert.

Lemma upsert_idempotent_witness :
  (5 =? 0)%float = false ∧
  let once := (upsert_node (H := demo) (VStr "A") (opt_str (Some "a")) (opt_float (Some 1%float))
                           (opt_float (Some 2%float)) (VFloat 5) initial).1 in
  let twice := (upsert_node (H := demo) (VStr "A") (opt_str (Some "a")) (opt_float (Some 1%float))
                            (opt_float (Some 2%float)) (VFloat 5) once).1 in
  nodes twice = nodes once ∧ origin twice = origin once.
Proof.
  split; [reflexivity|].
  apply (upsert_idempotent (H := demo) "A" (Some "a") (Some 1%float) (Some 2%float) 5 initial).
  reflexivity.
Defined.

Lemma upsert_failing_position_witness :
  position_raises (H := demo) (VStr "north") (VFloat 2) ValueError ∧
  let out := upsert_node (H := demo) (VStr "A") (opt_str None) (VStr "north") (VFloat 2)
                         (opt_float (Some 9%float)) heard_A in
  out.2 = inl ValueError ∧
  origin out.1 = origin heard_A ∧
  nodes out.1 = match nodes_lookup (VStr "A") (nodes heard_A) with
                | Some _ => updated (H := demo) "A" None None None (Some 9%float) heard_A
                | None => nodes heard_A
                end.
Proof.
  assert (Hr : position_raises (H := demo) (VStr "north") (VFloat 2) ValueError).
  { split; [reflexivity|]. split; [reflexivity|]. left. vm_compute. reflexivity. }
  split; [exact Hr|].
  exact (upsert_failing_position (H := demo) "A" None (VStr "north") (VFloat 2)
           (Some 9%float) ValueError heard_A Hr).
Defined.

End UpsertFacts.

(** *** The store under every event *)

Module IngestFacts.
Import Py Store StoreFacts Poller.

(** What reaches the store: a received packet, a node update, or a poll of
    the node database. *)
Inductive event : Type :=
  | Rx (packet : value)
  | NodeUpdated (node : value)
  | Poll (nd : value).

(** The origin flag tells whether the coordinates are there. *)
Definition coherent (o : origin_t) : Prop :=
  if o_set o then is_Some (o_lat o) ∧ is_Some (o_lon o)
  else o_lat o = None ∧ o_lon o = None.

(** A handler body is binds, [or], branches, reads and calls of
    [upsert_node]: the calls are what is left to show. *)
Ltac split_body :=
  lazymatch goal with
  | |- hoare _ (mbind _ _) _ =>
      eapply (hoare_bind _ _ _ (λ _, True)); [split_body|intros ? _; split_body]
  | |- hoare _ (or_else _ _) _ => apply hoare_or_else; split_body
  | |- hoare _ (if ?b then _ else _) _ => destruct b; split_body
  | |- hoare _ (mret _) _ => apply hoare_ret; exact I
  | |- hoare _ (lift _) _ => apply hoare_lift_any
  | |- hoare _ now _ => apply hoare_now
  | |- hoare _ (q_put _ _ _) _ => apply hoare_q_put
  | _ => idtac
  end.

Section ingest.
Context `{Builtins}.

Definition handle (ev : event) : M unit :=
  match ev with
  | Rx packet => on_rx packet
  | NodeUpdated node => on_node_updated node
  | Poll nd => poll_nodes nd
  end.

(** The events one after the other, from the state [st]. *)
Definition run_events (evs : list event) (st : state) : state :=
  foldl (λ st ev, (handle ev st).1) st evs.

Lemma hoare_for_each {A} (I : state → Prop) (body : A → M unit) xs :
  (∀ x, hoare I (body x) (λ _, True)) → hoare I (for_each body xs) (λ _, True).
Proof.
  intros Hb. induction xs as [|x xs IH]; simpl; [by apply hoare_ret|].
  eapply hoare_bind; [apply Hb|]. intros _ _. exact IH.
Qed.

(** The handlers touch the node map and the origin through [upsert_node]
    only: what every call of it keeps, every event keeps. *)
Lemma hoare_handle P ev :
  (∀ nid nm la lo ts, hoare (on_data P) (upsert_node nid nm la lo ts) (λ _, True)) →
  hoare (on_data P) (handle ev) (λ _, True).
Proof.
  intros Hup. destruct ev as [packet|node|nd]; simpl.
  - apply hoare_on_rx. intros _ _. unfold on_rx_body.
    eapply (hoare_bind _ _ _ (λ _, True)); [apply hoare_rx_node_id|].
    intros nid _. apply hoare_rx_rest. intros nm la lo ts. apply Hup.
  - unfold on_node_updated, _as_dict.
    destruct (is_dict node); [|by apply hoare_ret].
    destruct (negb (truthy node)); [by apply hoare_ret|].
    apply (hoare_try _ _ (λ _, True)). unfold on_node_updated_body. cbv zeta.
    split_body; apply Hup.
  - unfold poll_nodes. apply (hoare_try _ _ (λ _, True)).
    destruct nd; try (by apply hoare_ret).
    apply hoare_for_each. intros [k data]. unfold poll_node. split_body; apply Hup.
Qed.

Lemma handle_returns ev st : (handle ev st).2 = inr tt.
Proof.
  destruct ev; simpl;
    [apply on_rx_returns|apply on_node_updated_returns|reflexivity].
Qed.

Lemma upsert_keeps_coherent nid nm la lo ts :
  hoare (on_data (λ _ o, coherent o)) (upsert_node nid nm la lo ts) (λ _, True).
Proof.
  apply (hoare_upsert _ (λ _, True)); done.
Qed.

Lemma run_events_inv P evs st :
  (∀ nid nm la lo ts, hoare (on_data P) (upsert_node nid nm la lo ts) (λ _, True)) →
  on_data P st → on_data P (run_events evs st).
Proof.
  intros Hup. unfold run_events. revert st.
  induction evs as [|ev evs IH]; intros st Hst; [done|].
  simpl. apply IH. by destruct (hoare_handle P ev Hup st Hst).
Qed.

(** In every state the handlers reach from the empty store, whatever they
    receive: no handler raises; every record has its latitude and longitude
    both absent or both present; the origin has its coordinates exactly when
    its flag is set; and once the flag is set, no later event changes the
    origin. *)
Theorem ingest_invariants (evs : list event) :
  let st := run_events evs initial in
  (∀ ev st', (handle ev st').2 = inr tt) ∧
  Forall (λ kr, paired kr.2) (nodes st) ∧
  coherent (origin st) ∧
  (∀ more, o_set (origin st) = true → origin (run_events more st) = origin st).
Proof.
  simpl. split_and!.
  - apply handle_returns.
  - apply (run_events_inv (λ l _, Forall (λ kr, paired kr.2) l)); [|constructor].
    intros nid nm la lo ts. apply (upsert_keeps_paired (Call nid nm la lo ts)).
  - apply (run_events_inv (λ _ o, coherent o)); [|by split].
    apply upsert_keeps_coherent.
  - intros more Hset.
    apply (run_events_inv (λ _ o, o = origin (run_events evs initial))); [|done].
    intros nid nm la lo ts.
    apply (upsert_keeps_origin (Call nid nm la lo ts)). by left.
Qed.

End ingest.

End IngestFacts.

(** *** Packets: applied in full, or dropped *)

Module RxFacts.
Import Py Store StoreFacts UpsertFacts.

(** The record a packet with a full position leaves under its id. *)
Definition replaced (nid : value) (r : node) (l : list (value * node))
    : list (value * node) :=
  match nodes_lookup nid l with
  | Some _ => nodes_alter (λ _, r) nid l
  | None => l ++ [(nid, r)]
  end.

(** A packet with an id, a time that reads as the float [t], neither being
    zero, and, under [decoded], a position. *)
Record position_packet `{Builtins} (pkt : value) (id : string) (t la lo : float) : Prop := {
  pp_id : field pkt "fromId" = VStr id;
  pp_id_ne : id ≠ "";
  pp_time_given : truthy (field pkt "rxTime") = true;
  pp_time : py_float (field pkt "rxTime") = inr t;
  pp_time_nz : (t =? 0)%float = false;
  pp_from : is_dict (field pkt "from") = false;
  pp_lat : field (field (field pkt "decoded") "position") "latitude" = VFloat la;
  pp_lon : field (field (field pkt "decoded") "position") "longitude" = VFloat lo }.

(** A packet whose [decoded] has no position and a payload that is neither
    empty nor a dictionary, as the bytes of a text message are. *)
Record opaque_packet (pkt : value) : Prop := {
  op_decoded : is_dict (field pkt "decoded") = true;
  op_position : truthy (field (field pkt "decoded") "position") = false;
  op_payload : truthy (field (field pkt "decoded") "payload") = true;
  op_payload_type : is_dict (field (field pkt "decoded") "payload") = false }.

Section rx.
Context `{Builtins}.

Lemma field_dict v k x : field v k = x → x ≠ VNone → is_dict v = true.
Proof. destruct v; unfold field; simpl; congruence. Qed.

Lemma field_get v k : is_dict v = true → py_get v k = inr (field v k).
Proof. by destruct v. Qed.

Lemma field_has_key v k x : field v k = x → x ≠ VNone → has_key k v = true.
Proof.
  destruct v; unfold field; simpl; try congruence.
  destruct (assoc k items); simpl; congruence.
Qed.

Lemma dict_truthy v k x : field v k = x → x ≠ VNone → truthy v = true.
Proof.
  destruct v as [| | | | | |items]; unfold field; simpl; try congruence.
  destruct items; simpl; congruence.
Qed.

Lemma rx_position_decoded pkt st :
  is_dict pkt = true →
  truthy (field (field pkt "decoded") "position") = true →
  rx_position pkt st = (st, inr (field (field pkt "decoded") "position")).
Proof.
  intros Hd Hp. unfold rx_position.
  assert (Hdec : is_dict (field pkt "decoded") = true).
  { destruct (field pkt "decoded"); try done. }
  assert (Htr : truthy (field pkt "decoded") = true).
  { destruct (field pkt "decoded") as [| | | | | |[|]]; try done. }
  run_m. rewrite (field_get pkt _ Hd). run_m. rewrite Htr. run_m.
  rewrite Hdec. rewrite (field_get _ _ Hdec). run_m. rewrite Hp. run_m.
  by rewrite Hp.
Qed.

Lemma rx_position_opaque pkt st :
  is_dict pkt = true → opaque_packet pkt →
  rx_position pkt st = (st, inl AttributeError).
Proof.
  intros Hd [Hdec Hp Hpl Hty]. unfold rx_position, payload_position.
  assert (Htr : truthy (field pkt "decoded") = true).
  { destruct (field pkt "decoded") as [| | | | | |[|]]; done. }
  run_m. rewrite (field_get pkt _ Hd). run_m. rewrite Htr. run_m.
  rewrite Hdec. rewrite !(field_get _ _ Hdec). run_m. rewrite Hp. run_m.
  rewrite Hpl. run_m.
  destruct (field (field pkt "decoded") "payload"); try done.
Qed.

Lemma bind_run {A B} (m : M A) (f : A → M B) st st' a :
  m st = (st', inr a) → (m ≫= f) st = f a st'.
Proof. intros E. unfold mbind, M_bind. by rewrite E. Qed.

(** [on_rx] on a dictionary that is not empty: the clock is read for
    [status], and the [try] runs. *)
Lemma on_rx_dict pkt st :
  is_dict pkt = true → truthy pkt = true →
  on_rx pkt st =
    ((on_rx_body pkt (State (nodes st) (origin st) (clock (ticks st)) (q st)
                            (S (ticks st)))).1, inr tt).
Proof.
  intros Hd Ht. unfold on_rx, _as_dict, try_.
  destruct pkt as [| | | | | |items]; try done.
  unfold mbind, M_bind, now, modify. simpl in *. by rewrite Ht.
Qed.

Lemma rx_node_id_given pkt id st :
  field pkt "fromId" = VStr id → id ≠ "" → rx_node_id pkt st = (st, inr (VStr id)).
Proof.
  intros Hid Hne%String.eqb_neq. unfold rx_node_id.
  rewrite (bind_run _ _ st st (VStr id)); [|rewrite field_get, Hid; [done|]].
  - unfold or_else. simpl. by rewrite Hne.
  - by eapply field_dict.
Qed.

Lemma rx_time_given pkt t st :
  truthy (field pkt "rxTime") = true → py_float (field pkt "rxTime") = inr t →
  rx_time pkt st = (st, inr t).
Proof.
  intros Hg Ht. unfold rx_time.
  assert (Hd : is_dict pkt = true).
  { destruct pkt; try done. }
  rewrite (bind_run _ _ st st (field pkt "rxTime")); [|by rewrite field_get].
  rewrite (bind_run _ _ st st (field pkt "rxTime")); [|unfold or_else; by rewrite Hg].
  unfold lift. by rewrite Ht.
Qed.

Lemma rx_name_absent pkt st :
  is_dict pkt = true → is_dict (field pkt "from") = false →
  rx_name pkt st = (st, inr VNone).
Proof.
  intros Hd Hf. unfold rx_name.
  rewrite (bind_run _ _ st st (field pkt "from")); [|by rewrite field_get].
  by rewrite Hf.
Qed.

(** A packet that carries its id, its time and a position under [decoded]
    is applied in full: the record under the id holds that position and that
    time, and, the packet having no [from] dictionary, the id for a name; the
    first such packet sets the origin; [status] takes the reading of the
    clock and the queue the notice of the packet.  Every other record is as
    it was. *)
Theorem on_rx_position_packet (pkt : value) (id : string) (t la lo : float) (st : state) :
  position_packet pkt id t la lo →
  let out := on_rx pkt st in
  out.2 = inr tt ∧
  nodes out.1 = replaced (VStr id) (Node (VStr id) (Some la) (Some lo) t) (nodes st) ∧
  origin out.1 = origin_after (Some la) (Some lo) (origin st) ∧
  last_packet out.1 = clock (ticks st) ∧
  q out.1 = q st ++ [("rx", VStr id, t)].
Proof.
  intros [Hid Hne Hg Ht Htz Hfrom Hla Hlo]. simpl.
  assert (Hd : is_dict pkt = true) by (by eapply field_dict).
  assert (Htr : truthy pkt = true) by (by eapply dict_truthy).
  set (pos := field (field pkt "decoded") "position") in *.
  assert (Hpd : is_dict pos = true) by (by eapply field_dict).
  assert (Hpt : truthy pos = true) by (by eapply dict_truthy).
  rewrite (on_rx_dict pkt st Hd Htr).
  set (st1 := State (nodes st) (origin st) (clock (ticks st)) (q st) (S (ticks st))).
  destruct (upsert_node_closed id (Some id) (Some la) (Some lo) (Some t) st1)
    as (Hret & Hn & Ho & Hl & Hq).
  simpl in Hret, Hn, Ho, Hl, Hq.
  destruct (upsert_node (VStr id) (VStr id) (VFloat la) (VFloat lo) (VFloat t) st1)
    as [st2 r] eqn:Eup. simpl in Hret, Hn, Ho, Hl, Hq. subst r.
  unfold on_rx_body.
  rewrite (bind_run _ _ _ _ _ (rx_node_id_given pkt id st1 Hid Hne)).
  rewrite (bind_run _ _ _ _ _ (rx_time_given pkt t st1 Hg Ht)).
  rewrite (bind_run _ _ _ _ _ (rx_name_absent pkt st1 Hd Hfrom)).
  rewrite (bind_run _ _ _ _ _ (rx_position_decoded pkt st1 Hd Hpt)). fold pos.
  rewrite (bind_run (or_else VNone _) _ st1 st1 (VStr id) eq_refl).
  rewrite Hpd, (field_has_key pos "latitude" _ Hla), (field_has_key pos "longitude" _ Hlo)
    by done. simpl.
  rewrite (bind_run (_ ≫= _) _ st1 st2 tt).
  2:{ rewrite (bind_run _ _ st1 st1 (VFloat la)); [|by rewrite field_get, Hla].
      rewrite (bind_run _ _ st1 st1 (VFloat lo)); [|by rewrite field_get, Hlo].
      exact Eup. }
  unfold q_put, modify. simpl.
  split; [done|]. rewrite Hn, Ho, Hl, Hq. split_and!; try done.
  unfold updated, replaced, stamp. simpl. rewrite Htz.
  apply String.eqb_neq in Hne.
  destruct (nodes_lookup (VStr id) (nodes st)) as [r|]; unfold merged; simpl;
    rewrite Hne; [|done].
  by apply nodes_alter_ext.
Qed.

(** A packet whose [decoded] has a payload that is no dictionary, and no
    position, is dropped: looking for a position in the payload raises, and
    neither the node map nor the origin changes; the node is not even marked
    as heard. *)
Theorem on_rx_opaque_payload (pkt : value) (st : state) :
  opaque_packet pkt →
  let out := on_rx pkt st in
  out.2 = inr tt ∧ nodes out.1 = nodes st ∧ origin out.1 = origin st.
Proof.
  intros Hop. simpl. split; [apply on_rx_returns|].
  assert (Hh : hoare (on_data (λ l o, l = nodes st ∧ o = origin st)) (on_rx pkt)
                     (λ _, True)); [|by destruct (Hh st) as [[? ?] _]].
  apply hoare_on_rx. intros Hd _. unfold on_rx_body.
  eapply (hoare_bind _ _ _ (λ _, True)); [apply hoare_rx_node_id|intros nid _].
  eapply (hoare_bind _ _ _ (λ _, True)); [apply hoare_rx_time|intros ts _].
  eapply (hoare_bind _ _ _ (λ _, True)); [apply hoare_rx_name|intros nm _].
  eapply (hoare_bind _ _ _ (λ _, False)); [|done].
  apply (hoare_raises _ _ AttributeError). intros st'. by apply rx_position_opaque.
Qed.

End rx.

(** A position packet from node A, and a text message from it. *)
Definition fix_packet : value :=
  VDict [("fromId", VStr "A"); ("rxTime", VInt 9);
         ("decoded", VDict [("position", VDict [("latitude", VFloat 1);
                                                ("longitude", VFloat 2)])])].

Definition text_packet : value :=
  VDict [("fromId", VStr "A"); ("rxTime", VInt 9);
         ("decoded", VDict [("portnum", VStr "TEXT_MESSAGE_APP");
                            ("payload", VBytes "hello")])].

Lemma on_rx_position_packet_witness :
  position_packet (H := demo) fix_packet "A" 9 1 2 ∧
  let out := on_rx (H := demo) fix_packet initial in
  out.2 = inr tt ∧
  nodes out.1 = replaced (VStr "A") (Node (VStr "A") (Some 1%float) (Some 2%float) 9)
                         (nodes initial) ∧
  origin out.1 = origin_after (Some 1%float) (Some 2%float) (origin initial) ∧
  last_packet out.1 = clock (Builtins := demo) (ticks initial) ∧
  q out.1 = q initial ++ [("rx", VStr "A", 9%float)].
Proof.
  assert (Hp : position_packet (H := demo) fix_packet "A" 9 1 2)
    by (split; try done; vm_compute; reflexivity).
  split; [exact Hp|].
  exact (on_rx_position_packet (H := demo) fix_packet "A" 9 1 2 initial Hp).
Defined.

Lemma on_rx_opaque_payload_witness :
  opaque_packet text_packet ∧
  let out := on_rx (H := demo) text_packet heard_A in
  out.2 = inr tt ∧ nodes out.1 = nodes heard_A ∧ origin out.1 = origin heard_A.
Proof.
  assert (Hp : opaque_packet text_packet) by (by split).
  split; [exact Hp|].
  exact (on_rx_opaque_payload (H := demo) text_packet heard_A Hp).
Defined.

End RxFacts.

(** *** Node records *)

Module NodeFacts.
Import Py Store StoreFacts UpsertFacts RxFacts.

(** A node record with a number, a long name and a position. *)
Record node_record (nd : value) (num : Z) (nm : string) (la lo : float) : Prop := {
  nr_num : field nd "num" = VInt num;
  nr_num_nz : num ≠ 0%Z;
  nr_name : field (field nd "user") "longName" = VStr nm;
  nr_name_ne : nm ≠ "";
  nr_lat : field (field nd "position") "latitude" = VFloat la;
  nr_lon : field (field nd "position") "longitude" = VFloat lo }.

(** The state after a reading of the clock. *)
Definition tick (st : state) : state :=
  State (nodes st) (origin st) (last_packet st) (q st) (S (ticks st)).

(** The record the radio keeps of node 7. *)
Definition node_seven : value :=
  VDict [("num", VInt 7);
         ("user", VDict [("longName", VStr "Base"); ("shortName", VStr "B")]);
         ("position", VDict [("latitude", VFloat 1); ("longitude", VFloat 2)])].

Lemma pretty_N_go_nonempty x s : (s ≠ "" ∨ (0 < x)%N) → pretty_N_go x s ≠ "".
Proof.
  revert s. induction (N.lt_wf_0 x) as [x _ IH]. intros s Hs.
  destruct (decide (x = 0%N)) as [->|Hx].
  - rewrite pretty_N_go_0. destruct Hs; [done|lia].
  - rewrite pretty_N_go_step by lia. apply IH; [apply N.div_lt; lia|by left].
Qed.

(** [str(n)] of an integer is never empty. *)
Lemma pretty_Z_nonempty (z : Z) : pretty z ≠ "".
Proof.
  destruct z as [|p|p]; [done| |done].
  apply pretty_N_go_nonempty. right. lia.
Qed.

Section node.
Context `{Builtins}.

Lemma on_node_updated_dict nd st :
  is_dict nd = true → truthy nd = true →
  on_node_updated nd st = ((on_node_updated_body nd st).1, inr tt).
Proof.
  intros Hd Ht. unfold on_node_updated, _as_dict, try_.
  destruct nd as [| | | | | |items]; try done. simpl in *. by rewrite Ht.
Qed.

(** A node record with a number, a long name and a position is applied in
    full under the decimal text of the number: the record is merged with the
    name and the position, its last-seen time is the reading of the clock
    taken for the call, the first position sets the origin, [status] is left
    alone and the queue takes the notice of the update. *)
Theorem on_node_updated_record (nd : value) (num : Z) (nm : string) (la lo : float)
    (st : state) :
  node_record nd num nm la lo →
  let out := on_node_updated nd st in
  out.2 = inr tt ∧
  nodes out.1 = updated (pretty num) (Some nm) (Some la) (Some lo)
                        (Some (clock (ticks st))) (tick st) ∧
  origin out.1 = origin_after (Some la) (Some lo) (origin st) ∧
  last_packet out.1 = last_packet st ∧
  ∃ t, q out.1 = q st ++ [("node", VStr (pretty num), t)].
Proof.
  intros [Hnum Hnz Hname Hne Hla Hlo]. simpl.
  assert (Hd : is_dict nd = true) by (by eapply field_dict).
  assert (Htr : truthy nd = true) by (by eapply dict_truthy).
  set (user := field nd "user") in *. set (pos := field nd "position") in *.
  assert (Hud : is_dict user = true) by (by eapply field_dict).
  assert (Hut : truthy user = true) by (by eapply dict_truthy).
  assert (Hpd : is_dict pos = true) by (by eapply field_dict).
  assert (Hpt : truthy pos = true) by (by eapply dict_truthy).
  apply String.eqb_neq in Hne.
  pose proof (pretty_Z_nonempty num) as Hid. apply String.eqb_neq in Hid.
  rewrite (on_node_updated_dict nd st Hd Htr).
  destruct (upsert_node_closed (pretty num) (Some nm) (Some la) (Some lo)
              (Some (clock (ticks st))) (tick st)) as (Hret & Hn & Ho & Hl & Hq).
  simpl in Hret, Hn, Ho, Hl, Hq.
  destruct (upsert_node (VStr (pretty num)) (VStr nm) (VFloat la) (VFloat lo)
              (VFloat (clock (ticks st))) (tick st)) as [st2 r] eqn:Eup.
  simpl in Hret, Hn, Ho, Hl, Hq. subst r.
  unfold on_node_updated_body.
  rewrite (bind_run _ _ st st (VInt num)); [|by rewrite field_get, Hnum].
  rewrite (bind_run (or_else (VInt num) _) _ st st (VInt num)).
  2:{ unfold or_else. simpl. by destruct (Z.eqb_spec num 0). }
  assert (Hc : negb (truthy (VStr (py_str (VInt num)))) = false)
    by (simpl; by rewrite Hid).
  cbv zeta. rewrite Hc. change (py_str (VInt num)) with (pretty num).
  rewrite (bind_run _ _ st st user); [|by rewrite field_get].
  rewrite (bind_run (or_else user _) _ st st user); [|unfold or_else; by rewrite Hut].
  rewrite (bind_run _ _ st st (VStr nm)); [|by rewrite field_get, Hname].
  rewrite (bind_run (or_else (VStr nm) _) _ st st (VStr nm)).
  2:{ unfold or_else. simpl. by rewrite Hne. }
  rewrite (bind_run _ _ st st pos); [|by rewrite field_get].
  rewrite (bind_run (or_else pos _) _ st st pos); [|unfold or_else; by rewrite Hpt].
  rewrite (bind_run _ _ st st (VFloat la)); [|by rewrite field_get, Hla].
  rewrite (bind_run _ _ st st (VFloat lo)); [|by rewrite field_get, Hlo].
  rewrite (bind_run now _ st (tick st) (clock (ticks st)) eq_refl).
  rewrite (bind_run _ _ (tick st) st2 tt Eup).
  rewrite (bind_run now _ st2 (tick st2) (clock (ticks st2)) eq_refl).
  unfold q_put, modify, tick. simpl.
  split; [done|]. rewrite Hn, Ho, Hl, Hq. split_and!; try done. by eexists.
Qed.

End node.

Lemma on_node_updated_record_witness :
  node_record node_seven 7 "Base" 1 2 ∧
  let out := on_node_updated (H := demo) node_seven initial in
  out.2 = inr tt ∧
  nodes out.1 = updated (H := demo) (pretty 7%Z) (Some "Base") (Some 1%float) (Some 2%float)
                        (Some (clock (Builtins := demo) (ticks initial))) (tick initial) ∧
  origin out.1 = origin_after (Some 1%float) (Some 2%float) (origin initial) ∧
  last_packet out.1 = last_packet initial ∧
  ∃ t, q out.1 = q initial ++ [("node", VStr (pretty 7%Z), t)].
Proof.
  assert (Hp : node_record node_seven 7 "Base" 1 2) by (by split).
  split; [exact Hp|].
  exact (on_node_updated_record (H := demo) node_seven 7 "Base" 1 2 initial Hp).
Defined.

End NodeFacts.

(** *** The serial ports to try *)

Module PortsFacts.
Import Ports.

#[local] Set Warnings "-clear-no-such-hyp".

Section host.
Variable path_exists : string → bool.
Variable list_ports : option (list string).







End host.

(** Only the two [tty] patterns take the number. *)
Example candidate_names :
  (λ pat, candidate pat 3) <$> PATTERNS =
    ["/dev/ttyACM3"; "/dev/ttyUSB3"; "/dev/cu.usbserial"; "/dev/cu.SLAB_USBtoUART"].
Proof. vm_compute. reflexivity. Qed.

End PortsFacts.

(** *** The projection, the other way round *)

Module UnprojectFacts.
Import Py Projector ProjectorFacts.
Open Scope R_scope.



End UnprojectFacts.

(** *** The zoom step on floats *)

Module ZoomFacts.
Import Py Viewport.
Open Scope Z_scope.

(** The least scale of the manual mode, the literal [0.0001]. *)
Definition MIN_SCALE : float := decimal 1 10000.

(** [max(0.0001, x)] is at least [0.0001] and is not zero, for every float
    [x]: a NaN does not compare greater, so [max] keeps its first argument. *)
Lemma py_max_floor (x : float) :
  (MIN_SCALE <=? py_max MIN_SCALE x)%float = true ∧
  is_zero (py_max MIN_SCALE x) = false.
Proof.
  unfold py_max. simpl ltb.
  destruct (MIN_SCALE <? x)%float eqn:E; [|by vm_compute].
  simpl is_zero.
  rewrite FloatAxioms.ltb_spec in E.
  rewrite FloatAxioms.leb_spec, FloatAxioms.eqb_spec.
  unfold SFltb in E. unfold SFleb, SFeqb.
  destruct (SFcompare (Prim2SF MIN_SCALE) (Prim2SF x)) as [[| |]|] eqn:C; try done.
  split; [done|].
  change (Prim2SF 0) with (S754_zero false).
  destruct (Prim2SF x) as [s|s| |s m e]; try done.
  - by destruct s.
  - by destruct s.
Qed.

Lemma current_scale_manual (v : view) (fit_scale : float) :
  zoom_mode v = Manual →
  (MIN_SCALE <=? current_scale v fit_scale)%float = true ∧
  is_zero (current_scale v fit_scale) = false.
Proof. intros Hm. unfold current_scale. rewrite Hm. apply py_max_floor. Qed.

(** [ZOOM_STEP] is not zero: the step of either direction is computed. *)
Lemma zoom_step_returns (dirn : Z) :
  ∃ step : float,
    (if 0 <? dirn then mret ZOOM_STEP else div (decimal 1 1) ZOOM_STEP) = inr step.
Proof.
  destruct (0 <? dirn); [by eexists|].
  exists (quot (decimal 1 1) ZOOM_STEP). by vm_compute.
Qed.

(** The zoom branch of the wheel handler on binary64 floats, whatever the
    numbers (infinities and NaN included).  It raises exactly when the scale
    of the frame is a zero, and then [ZeroDivisionError] at the first
    division, before any global is written.  Otherwise it returns: the mode
    is manual, the new scale is the one the next frame computes from the new
    view, it is at least [0.0001], and the velocities are kept.  In manual
    mode the scale of the frame is never zero, so the handler never raises. *)
Theorem wheel_zoom_float (cx cy mx my dirn : Z) (fit_scale scale : float) (v : view) :
  (is_zero scale = true →
   wheel_zoom cx cy mx my dirn fit_scale scale v = inl ZeroDivisionError) ∧
  (is_zero scale = false →
   ∃ wx wy v' scale',
     wheel_zoom cx cy mx my dirn fit_scale scale v = inr (wx, wy, v', scale') ∧
     zoom_mode v' = Manual ∧
     scale' = current_scale v' fit_scale ∧
     (MIN_SCALE <=? scale')%float = true ∧
     pan_vx v' = pan_vx v ∧ pan_vy v' = pan_vy v) ∧
  (zoom_mode v = Manual →
   ∃ r, wheel_zoom cx cy mx my dirn fit_scale (current_scale v fit_scale) v = inr r).
Proof.
  assert (Hret : ∀ s, is_zero s = false →
    ∃ wx wy v' scale',
      wheel_zoom cx cy mx my dirn fit_scale s v = inr (wx, wy, v', scale') ∧
      zoom_mode v' = Manual ∧
      scale' = current_scale v' fit_scale ∧
      (MIN_SCALE <=? scale')%float = true ∧
      pan_vx v' = pan_vx v ∧ pan_vy v' = pan_vy v).
  { intros s Hs. unfold wheel_zoom.
    destruct (zoom_step_returns dirn) as [step ->].
    pose proof (current_scale_manual
      (View Manual (mul (zoom_k v) step) (pan_x_m v) (pan_y_m v) (pan_vx v) (pan_vy v))
      fit_scale eq_refl) as [Hle Hnz].
    unfold div. rewrite Hs.
    unfold mbind, exn_bind, mret, exn_ret. cbv beta iota zeta.
    rewrite Hnz. eexists _, _, _, _. split; [reflexivity|].
    split_and!; done. }
  split_and!.
  - intros Hs. unfold wheel_zoom, div. by rewrite Hs.
  - apply Hret.
  - intros Hm. destruct (current_scale_manual v fit_scale Hm) as [_ Hnz].
    destruct (Hret _ Hnz) as (wx & wy & v' & s' & -> & _). by eexists.
Qed.

End ZoomFacts.

(** *** The scale of a frame *)

Module ScaleFacts.
Import Py Viewport Scale TopologyFacts ZoomFacts.
Open Scope Z_scope.

(** [a <= b] on ranks. *)
Definition rank_le (a b : Z * Z * Z) : Prop := a = b ∨ rank_lt a b.

Lemma rank_lt_trans a b c : rank_lt a b → rank_lt b c → rank_lt a c.
Proof.
  destruct a as [[a1 a2] a3], b as [[b1 b2] b3], c as [[c1 c2] c3].
  unfold rank_lt. simpl. lia.
Qed.

Lemma rank_le_trans a b c : rank_le a b → rank_le b c → rank_le a c.
Proof.
  intros [->|H1] [->|H2]; [by left|by right|by right|].
  right. by eapply rank_lt_trans.
Qed.

Lemma rank_total a b : ¬ rank_lt a b → rank_le b a.
Proof.
  destruct a as [[a1 a2] a3], b as [[b1 b2] b3].
  unfold rank_le, rank_lt. simpl. intros Hn.
  destruct (decide (a1 = b1 ∧ a2 = b2 ∧ a3 = b3)) as [(-> & -> & ->)|Hne];
    [by left|right; lia].
Qed.

Lemma leb_ltb_eqb (x y : float) : (x <=? y)%float = ((x <? y) || (x =? y))%float.
Proof.
  rewrite FloatAxioms.leb_spec, FloatAxioms.ltb_spec, FloatAxioms.eqb_spec.
  unfold SFleb, SFltb, SFeqb. by destruct (SFcompare _ _) as [[]|].
Qed.

Lemma ltb_no_nan (x y : float) :
  (x <? y)%float = true → is_nan x = false ∧ is_nan y = false.
Proof.
  unfold is_nan. rewrite !FloatAxioms.eqb_spec, FloatAxioms.ltb_spec.
  unfold SFltb, SFeqb.
  destruct (Prim2SF x) as [[]|[]| |[] m1 e1], (Prim2SF y) as [[]|[]| |[] m2 e2];
    try done; simpl; intros _; by rewrite !Z.compare_refl, !Pos.compare_cont_refl.
Qed.

Lemma no_nan_refl (x : float) : is_nan x = false → (x =? x)%float = true.
Proof. unfold is_nan. by intros ?%negb_false_iff. Qed.

Lemma leb_rank (x y : float) :
  (x <=? y)%float = true ↔
  is_nan x = false ∧ is_nan y = false ∧ rank_le (rank x) (rank y).
Proof.
  rewrite leb_ltb_eqb, orb_true_iff. split.
  - intros [Hlt|Heq].
    + destruct (ltb_no_nan _ _ Hlt) as [Hx Hy]. split_and!; [done..|].
      right. by apply ltb_rank.
    + assert (is_nan x = false ∧ is_nan y = false) as [Hx Hy].
      { revert Heq. unfold is_nan. rewrite !FloatAxioms.eqb_spec. unfold SFeqb.
        destruct (Prim2SF x) as [[]|[]| |[] m1 e1], (Prim2SF y) as [[]|[]| |[] m2 e2];
          try done; simpl; intros _;
          by rewrite !Z.compare_refl, !Pos.compare_cont_refl. }
      split_and!; [done..|]. left. by apply eqb_rank.
  - intros (Hx & Hy & [Heq|Hlt]); [right; by apply eqb_rank|left; by apply ltb_rank].
Qed.

Section hypot.
Variable hypot : float → float → float.

(** One turn of the loop keeps [far] at 200 or more, and does not lower it. *)
Lemma far_step (far h : float) :
  (200 <=? far)%float = true →
  (200 <=? py_max far h)%float = true ∧
  (far <=? py_max far h)%float = true ∧
  (is_nan h = false → (h <=? py_max far h)%float = true).
Proof.
  intros Hf. pose proof Hf as (_ & Hn & _)%leb_rank.
  unfold py_max. simpl ltb. destruct (far <? h)%float eqn:E.
  - destruct (ltb_no_nan _ _ E) as [_ Hh].
    assert (Hle : (far <=? h)%float = true) by (by rewrite leb_ltb_eqb, E).
    split_and!; [|done|].
    + apply leb_rank in Hf as (H2 & _ & Hr). apply leb_rank in Hle as (_ & _ & Hr').
      apply leb_rank. split_and!; [done..|]. by eapply rank_le_trans.
    + intros _. rewrite leb_ltb_eqb, (no_nan_refl _ Hh). apply orb_true_r.
  - split_and!; [done| |].
    + rewrite leb_ltb_eqb, (no_nan_refl _ Hn). apply orb_true_r.
    + intros Hh. apply leb_rank. split_and!; [done..|].
      apply rank_total. intros Hlt. apply (ltb_rank _ _ Hn Hh) in Hlt. congruence.
Qed.

Lemma far_fold (plottable : list row) (far : float) :
  (200 <=? far)%float = true →
  let far' := foldl (λ far r, py_max far (reach hypot r)) far plottable in
  (200 <=? far')%float = true ∧
  (far <=? far')%float = true ∧
  (∀ r, r ∈ plottable → is_nan (reach hypot r) = false →
        (reach hypot r <=? far')%float = true) ∧
  (far' = far ∨ ∃ r, r ∈ plottable ∧ far' = reach hypot r).
Proof.
  revert far. induction plottable as [|r l IH]; intros far Hf; simpl.
  - split_and!; [done| |by intros ? ?%elem_of_nil|by left].
    apply leb_rank in Hf as (_ & Hn & _).
    rewrite leb_ltb_eqb, (no_nan_refl _ Hn). apply orb_true_r.
  - destruct (far_step far (reach hypot r) Hf) as (H200 & Hup & Hr).
    destruct (IH _ H200) as (IH1 & IH2 & IH3 & IH4).
    assert (Htrans : ∀ x y z : float,
      (x <=? y)%float = true → (y <=? z)%float = true → (x <=? z)%float = true).
    { intros x y z (? & ? & ?)%leb_rank (? & ? & ?)%leb_rank.
      apply leb_rank. split_and!; [done..|]. by eapply rank_le_trans. }
    split_and!; [done|by eapply Htrans| |].
    + intros r' [->|Hin]%elem_of_cons Hn; [|by apply IH3].
      eapply Htrans; [by apply Hr|done].
    + destruct IH4 as [->|(r' & Hin & ->)].
      * unfold py_max. simpl ltb. destruct (far <? reach hypot r)%float; [|by left].
        right. exists r. split; [left|done].
      * right. exists r'. split; [by right|done].
Qed.

(** The scale of a frame on binary64 floats, whatever the rows and whatever
    [math.hypot] returns for them.  [far] is at least 200 (so it is no NaN and
    [far>0] holds: [fit_scale] is the quotient, the [else 1.0] is never taken
    and the division never raises); it is 200 or the distance of a row, and no
    row whose distance is a number is farther.  In manual mode the scale is
    at least [0.0001]. *)
Theorem frame_scale_bounds (v : view) (max_px_radius : Z) (plottable : list row) :
  let far := far_of hypot plottable in
  (200 <=? far)%float = true ∧
  (far = 200%float ∨ ∃ r, r ∈ plottable ∧ far = reach hypot r) ∧
  (∀ r, r ∈ plottable → is_nan (reach hypot r) = false →
        (reach hypot r <=? far)%float = true) ∧
  frame_scale hypot v max_px_radius plottable =
    inr (quot (of_int max_px_radius) far,
         current_scale v (quot (of_int max_px_radius) far)) ∧
  (zoom_mode v = Manual →
   (MIN_SCALE <=? current_scale v (quot (of_int max_px_radius) far))%float = true).
Proof.
  simpl. destruct (far_fold plottable 200 eq_refl) as (H200 & _ & Hub & Hone).
  fold (far_of hypot plottable) in H200, Hub, Hone.
  split_and!; [done..| |intros Hm; by destruct (current_scale_manual v (quot (of_int max_px_radius) (far_of hypot plottable)) Hm)].
  unfold frame_scale, fit_scale_of.
  pose proof H200 as (_ & Hn & Hr)%leb_rank.
  assert (Hpos : rank_lt (rank 0) (rank (far_of hypot plottable))).
  { destruct Hr as [<-|Hr]; [by vm_compute; left|].
    eapply rank_lt_trans; [|done]. by vm_compute; left. }
  assert (H0 : ltb (of_int 0) (far_of hypot plottable) = true).
  { change (ltb (of_int 0) (far_of hypot plottable))
      with (0 <? far_of hypot plottable)%float.
    by apply ltb_rank. }
  rewrite H0. unfold div.
  assert (Hz : is_zero (far_of hypot plottable) = false).
  { simpl is_zero. apply not_true_iff_false. intros Hz%eqb_rank; [|done..].
    rewrite Hz in Hpos. change (rank 0) with (0, 0, 0) in Hpos.
    unfold rank_lt in Hpos. simpl in Hpos. lia. }
  by rewrite Hz.
Qed.

End hypot.

End ScaleFacts.
